(** * geodb: the object store, the proximity scan and the stream hub

    A shallow embedding of the two Go files of the repository:
    - [stream/stream.go]   (package [stream]: the [Hub]),
    - the [services] file  (type [GeoDB]: [Set], [Keys], [GetRegex], [Get],
      [Seek], [Delete], [Stream], [StreamEvents]).

    The Go code talks to four libraries that are not part of the repository:
    the badger key-value engine, protobuf (de)serialisation, the go.geo
    distance function and the [regexp] package.  The engine is modelled below
    (module [badger]) as an ordered map with per-transaction pending writes and
    per-entry expiry; the three pure libraries are the fields of the class
    [External], so every statement holds for all of their behaviours. *)

From Stdlib Require Import ZArith String Ascii List Bool Lia Floats.
From stdpp Require Import base option list gmap strings sorting.

Local Open Scope Z_scope.

(** ** Machine numbers *)

(** Two's-complement reduction of an integer to Go's [int64]. *)
Definition int64_wrap (z : Z) : Z := (z + 2 ^ 63) mod 2 ^ 64 - 2 ^ 63.

(** [a + b] on [int64] operands. *)
Definition int64_add (a b : Z) : Z := int64_wrap (a + b).

Definition max_int64 : Z := 2 ^ 63 - 1.

(** The conversion [uint64(x)] of an [int64]. *)
Definition uint64 (z : Z) : Z := z mod 2 ^ 64.

(** The conversion [float64(x)] of an [int64] in range: the magnitude is
    rounded to the nearest binary64 value (ties to even), the sign kept. *)
Definition float64_magnitude (n : Z) : float :=
  if Z.eqb n (2 ^ 63) then 9223372036854775808%float
  else PrimFloat.of_uint63 (Uint63.of_Z n).

Definition float64 (z : Z) : float :=
  if Z.ltb z 0 then PrimFloat.opp (float64_magnitude (Z.abs z))
  else float64_magnitude z.

(** ** Results of Go calls *)

(** The [error] values the model distinguishes. *)
Inductive error : Type :=
| ErrKeyNotFound
| ErrReadOnlyTxn
| ErrConflict
| ErrRegexpSyntax
| ErrProtoEncode
| ErrProtoDecode
| ErrEngine (msg : string).

(** A Go result pair [(value, err)] in which exactly one side is meaningful. *)
Inductive result (A : Type) : Type :=
| Ok (a : A)
| Err (e : error).
Arguments Ok {A} a.
Arguments Err {A} e.

(** A call either returns to its caller or the goroutine panics. *)
Inductive completion (A : Type) : Type :=
| Returned (a : A)
| Panicked.
Arguments Returned {A} a.
Arguments Panicked {A}.

(** The three ends of a call whose pointers may be nil and whose sends may
    find no receiver: it returns, it panics (a nil pointer dereference, which
    nothing recovers and which ends the process), or it waits for ever. *)
Inductive ending (A : Type) : Type :=
| Returns (a : A)
| Panics
| Blocks.
Arguments Returns {A} a.
Arguments Panics {A}.
Arguments Blocks {A}.

(** ** The API messages ([gen/go/geodb], generated; fields as the code uses them) *)

Record api_Point : Type := { Lat : float; Lon : float }.

(** Modelled from the spec: the generated declaration of [api.Object] is not
    among the sources.  [Point] is a pointer, so it may be nil ([None]);
    [Radius], [UpdatedUnix] and [ExpiresUnix] are [int64]; [Payload] stands
    for the "arbitrary caller payload fields", which no operation reads. *)
Record api_Object : Type := {
  Key : string;
  Point : option api_Point;
  Radius : Z;
  UpdatedUnix : Z;
  ExpiresUnix : Z;
  Payload : list (string * string)
}.

Record api_Event : Type := {
  TriggerObject : api_Object;
  Object : api_Object;
  Distance : float;
  TimestampUnix : Z
}.

Definition with_Key (key : string) (o : api_Object) : api_Object :=
  {| Key := key; Point := Point o; Radius := Radius o;
     UpdatedUnix := UpdatedUnix o; ExpiresUnix := ExpiresUnix o;
     Payload := Payload o |}.

Definition with_UpdatedUnix (t : Z) (o : api_Object) : api_Object :=
  {| Key := Key o; Point := Point o; Radius := Radius o;
     UpdatedUnix := t; ExpiresUnix := ExpiresUnix o;
     Payload := Payload o |}.

(** ** The libraries outside the repository *)

(** A point of go.geo, as [geo.NewPointFromLatLng] builds it. *)
Record geo_Point : Type := { geo_Lat : float; geo_Lng : float }.

Definition geo_NewPointFromLatLng (lat lng : float) : geo_Point :=
  {| geo_Lat := lat; geo_Lng := lng |}.

Class External : Type := {
  (** the serialised form of an object, [[]byte] in Go *)
  Bytes : Type;
  (** [proto.Marshal]: the bytes and the error it reports *)
  proto_Marshal : api_Object -> Bytes * option error;
  (** [proto.Unmarshal] into a fresh object; [None] is a decode error *)
  proto_Unmarshal : Bytes -> option api_Object;
  (** [p.GeoDistanceFrom(q, haversine)] of go.geo *)
  GeoDistanceFrom : geo_Point -> geo_Point -> bool -> float;
  (** a compiled regular expression, [regexp.Compile] and its method [MatchString] *)
  Regexp : Type;
  regexp_Compile : string -> option Regexp;
  Regexp_MatchString : Regexp -> string -> bool
}.

(** [regexp.MatchString(pattern, s)]: compile, then match. *)
Definition regexp_MatchString `{External} (pattern s : string) : result bool :=
  match regexp_Compile pattern with
  | Some re => Ok (Regexp_MatchString re s)
  | None => Err ErrRegexpSyntax
  end.

(** ** Byte strings as keys *)

(** [bytes.HasPrefix(s, prefix)]. *)
Definition HasPrefix (s pre : string) : bool := String.prefix pre s.

(** [bytes.Compare(a, b) <= 0], the order of the engine's iterators. *)
Definition bytes_le (a b : string) : Prop := String.leb a b = true.

#[global] Instance bytes_le_dec a b : Decision (bytes_le a b).
Proof. unfold bytes_le. apply _. Defined.

(** ** The key-value engine (badger), at its interface

    The engine is an external collaborator.  The model keeps what the spec
    assumes of it: an ordered key space, transactions that read a snapshot
    overlaid with their own pending writes, per-entry expiry, and writes that
    reach the store only through [Commit].  Whether [SetEntry], [Delete] or
    [Commit] fail is the engine's decision (key validation, transaction size,
    conflicts): it is an input of the model, an [option error].  The clock
    the engine reads to expire entries is an input too.  Reading the value
    of an item ([ValueCopy]) does not fail in the model. *)
Module badger.
Section engine.
Context {ext : External}.

(** What the engine keeps under a key. *)
Record ValueStruct : Type := {
  UserMeta : Z;
  ExpiresAt : Z;
  Value : Bytes
}.

(** [badger.Entry], as [Set] fills it. *)
Record Entry : Type := {
  EKey : string;
  EValue : Bytes;
  EUserMeta : Z;
  EExpiresAt : Z
}.

(** An iterator or lookup item: the key and what is stored under it. *)
Definition Item : Type := string * ValueStruct.
Definition Item_Key (i : Item) : string := i.1.
Definition Item_UserMeta (i : Item) : Z := UserMeta i.2.
Definition Item_ValueCopy (i : Item) : Bytes := Value i.2.

(** A transaction: whether it may write, the store as it was when the
    transaction began, and its own writes, each [Some v] (a set) or [None]
    (a delete).  The committed store itself is a [gmap string ValueStruct]. *)
Record Txn : Type := {
  update : bool;
  snapshot : gmap string ValueStruct;
  pendingWrites : gmap string (option ValueStruct)
}.

(** [db.NewTransaction(update)]. *)
Definition NewTransaction (db : gmap string ValueStruct) (upd : bool) : Txn :=
  {| update := upd; snapshot := db; pendingWrites := ∅ |}.

(** An entry with a non-zero expiry at or before the clock is gone. *)
Definition isExpired (now : Z) (v : ValueStruct) : bool :=
  negb (ExpiresAt v =? 0) && (ExpiresAt v <=? uint64 now).

(** Pending writes laid over a store: a set replaces, a delete removes. *)
Definition overlay (pending : gmap string (option ValueStruct))
    (base : gmap string ValueStruct) : gmap string ValueStruct :=
  merge (fun p b => match p with Some w => w | None => b end) pending base.

(** What a transaction can see at time [now]. *)
Definition Txn_view (now : Z) (txn : Txn) : gmap string ValueStruct :=
  filter (fun kv => isExpired now kv.2 = false)
         (overlay (pendingWrites txn) (snapshot txn)).

(** [txn.Get(key)]. *)
Definition Txn_Get (now : Z) (txn : Txn) (key : string) : result Item :=
  match Txn_view now txn !! key with
  | Some v => Ok (key, v)
  | None => Err ErrKeyNotFound
  end.

(** [txn.SetEntry(e)]. *)
Definition Txn_SetEntry (fault : option error) (txn : Txn) (e : Entry) : result Txn :=
  match fault with
  | Some err => Err err
  | None =>
      if update txn then
        Ok {| update := update txn; snapshot := snapshot txn;
              pendingWrites :=
                <[EKey e := Some {| UserMeta := EUserMeta e;
                                   ExpiresAt := EExpiresAt e;
                                   Value := EValue e |}]> (pendingWrites txn) |}
      else Err ErrReadOnlyTxn
  end.

(** [txn.Delete(key)]. *)
Definition Txn_Delete (fault : option error) (txn : Txn) (key : string) : result Txn :=
  match fault with
  | Some err => Err err
  | None =>
      if update txn then
        Ok {| update := update txn; snapshot := snapshot txn;
              pendingWrites := <[key := None]> (pendingWrites txn) |}
      else Err ErrReadOnlyTxn
  end.

(** [txn.Commit()]: the pending writes reach the store, or the engine refuses. *)
Definition Txn_Commit (fault : option error) (txn : Txn)
    (db : gmap string ValueStruct) : result (gmap string ValueStruct) :=
  match fault with
  | Some err => Err err
  | None => Ok (overlay (pendingWrites txn) db)
  end.

(** [txn.Discard()] without a commit: the store stays as it is. *)
Definition Txn_Discard (txn : Txn) (db : gmap string ValueStruct) :
    gmap string ValueStruct := db.

(** Items in the order of the iterator: ascending keys. *)
Definition Item_le (a b : Item) : Prop := bytes_le (Item_Key a) (Item_Key b).

#[global] Instance Item_le_dec a b : Decision (Item_le a b).
Proof. unfold Item_le. apply _. Defined.

(** [txn.NewIterator(DefaultIteratorOptions)] followed by [Rewind()]: every
    visible item, in key order.  [Valid], [Item] and [Next] are the list's
    emptiness test, head and tail. *)
Definition Iterator_Rewind (now : Z) (txn : Txn) : list Item :=
  merge_sort Item_le (map_to_list (Txn_view now txn)).

(** [it.Seek(key)]: skip to the first item whose key is not below [key]. *)
Fixpoint Iterator_skip (key : string) (items : list Item) : list Item :=
  match items with
  | [] => []
  | i :: rest =>
      if String.ltb (Item_Key i) key then Iterator_skip key rest else items
  end.

Definition Iterator_Seek (now : Z) (txn : Txn) (key : string) : list Item :=
  Iterator_skip key (Iterator_Rewind now txn).

End engine.
End badger.

(** ** [stream/stream.go]: the hub *)
Module stream.

(** The identity of a channel made by [make(chan ...)]; a nil channel is
    [None] wherever a channel may be absent. *)
Definition chan : Type := nat.

(** [Hub]: the two client maps.  The mutex is not modelled: every method
    below is one atomic step.  A nil map reads as the empty map. *)
Record Hub : Type := {
  objectClients : gmap string chan;
  eventClients : gmap string chan
}.

Definition NewHub : Hub := {| objectClients := ∅; eventClients := ∅ |}.

(** [AddObjectStreamClient(clientID)].  [uuid] is what [uuid.NewV4().String()]
    yields and [ch] the channel [make] returns. *)
Definition AddObjectStreamClient (uuid : string) (ch : chan) (clientID : string)
    (h : Hub) : string * Hub :=
  let clientID := if String.eqb clientID "" then uuid else clientID in
  (clientID,
   {| objectClients := <[clientID := ch]> (objectClients h);
      eventClients := eventClients h |}).

(** [RemoveObjectStreamClient(id)]: the entry is dropped.  The [close] of the
    channel has no counterpart here: a channel is an identity, and what a
    closed channel does to a goroutine that sends on it or receives from it
    is outside the model. *)
Definition RemoveObjectStreamClient (id : string) (h : Hub) : Hub :=
  match objectClients h !! id with
  | Some _ =>
      {| objectClients := delete id (objectClients h);
         eventClients := eventClients h |}
  | None => h
  end.

(** [GetClientObjectStream(id)]. *)
Definition GetClientObjectStream (id : string) (h : Hub) : option chan :=
  match objectClients h !! id with
  | Some _ => objectClients h !! id
  | None => None
  end.

(** [AddEventStreamClient(clientID)]. *)
Definition AddEventStreamClient (uuid : string) (ch : chan) (clientID : string)
    (h : Hub) : string * Hub :=
  let clientID := if String.eqb clientID "" then uuid else clientID in
  (clientID,
   {| objectClients := objectClients h;
      eventClients := <[clientID := ch]> (eventClients h) |}).

(** [RemoveEventStreamClient(id)]. *)
Definition RemoveEventStreamClient (id : string) (h : Hub) : Hub :=
  match eventClients h !! id with
  | Some _ =>
      {| objectClients := objectClients h;
         eventClients := delete id (eventClients h) |}
  | None => h
  end.

(** [GetClientEventStream(id)]: the presence test reads [objectClients], the
    result is [eventClients[id]] (nil when that map has no such key). *)
Definition GetClientEventStream (id : string) (h : Hub) : option chan :=
  match objectClients h !! id with
  | Some _ => eventClients h !! id
  | None => None
  end.

(** [PublishObject(obj)] and [PublishEvent(event)] send their argument on
    the ingress channel of their kind ([objectChan], [eventChan]).  A caller's
    sends are recorded in order, one [Published] item each. *)
Inductive Published : Type :=
| PublishObject (obj : api_Object)
| PublishEvent (event : api_Event).

(** Both channels are unbuffered, so a publish returns when the dispatcher
    of its kind has received the item, and never if no dispatcher does (none
    was started, or it waits itself for a client to receive).  How far the
    dispatchers follow a goroutine is decided outside it: [taken] is the
    number of its sends that are still going to be received, [None] standing
    for all of them.  [Publish taken] is one send: it yields what is left
    after it, or [None] when the send waits for ever. *)
Definition Publish (taken : option nat) : option (option nat) :=
  match taken with
  | None => Some None
  | Some O => None
  | Some (S n) => Some (Some n)
  end.

(** One round of [StartObjectStream]: the object taken from the ingress
    channel is sent on every registered object channel.  These are the sends
    of a round that gets to its end, which it does when every registered
    client receives; a send to a client that does not receive holds the
    dispatcher, and that is not followed here. *)
Definition StartObjectStream_round (h : Hub) (obj : api_Object) :
    list (chan * api_Object) :=
  (fun kc => (kc.2, obj)) <$> map_to_list (objectClients h).

(** One round of [StartEventStream]. *)
Definition StartEventStream_round (h : Hub) (event : api_Event) :
    list (chan * api_Event) :=
  (fun kc => (kc.2, event)) <$> map_to_list (eventClients h).

(** What the [select] of a dispatcher loop takes next: an item from the
    ingress channel, or the done context. *)
Inductive ingress_case (A : Type) : Type :=
| Ingress (item : A)
| CtxDone.
Arguments Ingress {A} item.
Arguments CtxDone {A}.

(** [StartObjectStream(ctx)] (lines 27-45), run over what its [select]
    takes: every object from the ingress channel is sent round; on the done
    context the [break] ends the [select] and the loop goes on.  The function
    has no [return]; the result lists the sends it has made so far. *)
Fixpoint StartObjectStream (h : Hub) (cases : list (ingress_case api_Object)) :
    list (chan * api_Object) :=
  match cases with
  | [] => []
  | Ingress obj :: rest => StartObjectStream_round h obj ++ StartObjectStream h rest
  | CtxDone :: rest => StartObjectStream h rest
  end.

(** [StartEventStream(ctx)] (lines 47-65). *)
Fixpoint StartEventStream (h : Hub) (cases : list (ingress_case api_Event)) :
    list (chan * api_Event) :=
  match cases with
  | [] => []
  | Ingress event :: rest => StartEventStream_round h event ++ StartEventStream h rest
  | CtxDone :: rest => StartEventStream h rest
  end.

End stream.

(** ** The [services] file: [GeoDB] *)
Module services.
Import badger stream.

(** The streaming calls.

    [Stream] and [StreamEvents] are [for { select { ... } }] loops.  Which
    case of the [select] fires is decided outside the function (a message
    arrives on the channel, the context is done), so it is the input of one
    iteration. *)
Inductive select_case (A : Type) : Type :=
| Received (msg : A)
| ContextDone.
Arguments Received {A} msg.
Arguments ContextDone {A}.

(** How an iteration leaves the loop body.  [Return err] is a [return err].
    Everything else goes round again, the [break] after the context is done
    included: in Go a [break] inside a [select] ends the [select] statement,
    and the loops have no label to break out to. *)
Inductive control : Type :=
| Continue
| Return (err : error).

Section geodb.
Context {ext : External}.

(** [type Meta byte] and its two constants. *)
Definition Meta : Type := Z.
Definition Meta_Byte (m : Meta) : Z := m.
Definition ObjectMeta : Meta := 1.
Definition EventMeta : Meta := 2.

(** The surroundings of one goroutine of [Set]: the clock it reads and the
    engine's verdicts on its [SetEntry] and its [Commit]. *)
Record Conditions : Type := {
  now : Z;
  SetEntry_fault : option error;
  Commit_fault : option error
}.

Inductive api_SetResponse : Type := SetResponse.
Inductive api_DeleteResponse : Type := DeleteResponse.

(** The distance line 90 computes between [point1] and a candidate's point. *)
Definition Set_distance (point1 : geo_Point) (p : api_Point) : float :=
  let point2 := geo_NewPointFromLatLng (Lat p) (Lon p) in
  GeoDistanceFrom point1 point2 true.

(** The test of line 91: [dist <= float64(val.Radius+obj.Radius)]. *)
Definition Set_within (val : api_Object) (point1 : geo_Point)
    (obj : api_Object) (p : api_Point) : bool :=
  PrimFloat.leb (Set_distance point1 p)
                (float64 (int64_add (Radius val) (Radius obj))).

(** The event of lines 92-97. *)
Definition Set_event (val : api_Object) (point1 : geo_Point)
    (obj : api_Object) (p : api_Point) : api_Event :=
  {| TriggerObject := val; Object := obj;
     Distance := Set_distance point1 p;
     TimestampUnix := UpdatedUnix val |}.

(** The proximity loop of [Set] (lines 71-99): [val] is the object being
    written, [point1] its point, [items] what the iterator still has to
    yield.  The events are listed in the order of their [PublishEvent]. *)
Fixpoint Set_scan (val : api_Object) (point1 : geo_Point) (items : list Item) :
    list api_Event :=
  match items with
  | [] => []
  | item :: rest =>
      if negb (Item_UserMeta item =? Meta_Byte ObjectMeta) then
        Set_scan val point1 rest
      else
        match proto_Unmarshal (Item_ValueCopy item) with
        | None => Set_scan val point1 rest
        | Some obj =>
            match Point obj with
            | None => Set_scan val point1 rest
            | Some p =>
                if Set_within val point1 obj p
                then Set_event val point1 obj p :: Set_scan val point1 rest
                else Set_scan val point1 rest
            end
        end
  end.

(** The object as [Set] stamps it before serialising (lines 53-56). *)
Definition Set_stamp (c : Conditions) (key : string) (val : api_Object) : api_Object :=
  let val := with_Key key val in
  if UpdatedUnix val =? 0 then with_UpdatedUnix (now c) val else val.

(** The entry [Set] builds from the stamped object (lines 57-63); the error
    of [proto.Marshal] is dropped. *)
Definition Set_entry (key : string) (val : api_Object) : Entry :=
  let bits := (proto_Marshal val).1 in
  {| EKey := key; EValue := bits;
     EUserMeta := Meta_Byte ObjectMeta;
     EExpiresAt := uint64 (ExpiresUnix val) |}.

(** The goroutine's transaction once the entry is staged (lines 51-66). *)
Definition Set_staged (c : Conditions) (key : string) (val : api_Object)
    (db : gmap string ValueStruct) : result Txn :=
  let txn := NewTransaction db true in
  Txn_SetEntry (SetEntry_fault c) txn (Set_entry key (Set_stamp c key val)).

(** The body of the goroutine [Set] starts for one entry of the request
    (lines 49-104), for a [val] that is not nil and a hub that takes every
    publish.  It yields the store it leaves and what it published, or panics
    on the nil [val.Point] of line 69.  [Set_go_func] below is the same body
    without the two assumptions. *)
Definition Set_goroutine (c : Conditions) (key : string) (val : api_Object)
    (db : gmap string ValueStruct) :
    completion (gmap string ValueStruct * list Published) :=
  match Set_staged c key val db with
  | Err _ => Returned (Txn_Discard (NewTransaction db true) db, [])
  | Ok txn =>
      let val := Set_stamp c key val in
      match Point val with
      | None => Panicked
      | Some p =>
          let point1 := geo_NewPointFromLatLng (Lat p) (Lon p) in
          let events := Set_scan val point1 (Iterator_Rewind (now c) txn) in
          let out := PublishObject val :: (PublishEvent <$> events) in
          match Txn_Commit (Commit_fault c) txn db with
          | Err _ => Returned (Txn_Discard txn db, out)
          | Ok db' => Returned (db', out)
          end
      end
  end.

(** The goroutines of one request, run one after the other in the order of
    the list, which is one of the schedules of the Go program; what the
    engine makes of the overlap of two transactions shows in their
    [Conditions].  A panic in one goroutine ends the process. *)
Fixpoint Set_goroutines (cond : string -> Conditions)
    (objects : list (string * api_Object)) (db : gmap string ValueStruct) :
    completion (gmap string ValueStruct * list Published) :=
  match objects with
  | [] => Returned (db, [])
  | (k, v) :: rest =>
      match Set_goroutine (cond k) k v db with
      | Panicked => Panicked
      | Returned (db1, out1) =>
          match Set_goroutines cond rest db1 with
          | Panicked => Panicked
          | Returned (db2, out2) => Returned (db2, out1 ++ out2)
          end
      end
  end.

(** [Set] on a request without nil objects and a hub that takes every
    publish: [objects] is [r.Object], a Go map, listed in the order its
    goroutines run; after [wg.Wait()] the answer is [(&SetResponse{}, nil)].
    [GeoDB_Set_call] below is the call without the two assumptions. *)
Definition GeoDB_Set (cond : string -> Conditions)
    (objects : list (string * api_Object)) (db : gmap string ValueStruct) :
    completion (result api_SetResponse * gmap string ValueStruct * list Published) :=
  match Set_goroutines cond objects db with
  | Panicked => Panicked
  | Returned (db', out) => Returned (Ok SetResponse, db', out)
  end.

(** *** [Set] with nil objects and a hub that may not take a publish

    The values of [r.Object] are pointers ([*api.Object]) and may be nil, and
    [PublishObject] and [PublishEvent] return only when a dispatcher has
    received what they send.  Each run below yields how it ends, the store at
    that point and the sends that were received, in order. *)

(** The proximity loop (lines 71-99) with its sends.  The second component
    tells whether the loop got to its end; it is [false] when a
    [PublishEvent] waits for ever. *)
Fixpoint Set_scan_publish (taken : option nat) (val : api_Object)
    (point1 : geo_Point) (items : list Item) : list Published * bool :=
  match items with
  | [] => ([], true)
  | item :: rest =>
      if negb (Item_UserMeta item =? Meta_Byte ObjectMeta) then
        Set_scan_publish taken val point1 rest
      else
        match proto_Unmarshal (Item_ValueCopy item) with
        | None => Set_scan_publish taken val point1 rest
        | Some obj =>
            match Point obj with
            | None => Set_scan_publish taken val point1 rest
            | Some p =>
                let point2 := {| geo_Lat := Lat p; geo_Lng := Lon p |} in
                let dist := GeoDistanceFrom point1 point2 true in
                if PrimFloat.leb dist (float64 (int64_add (Radius val) (Radius obj)))
                then
                  match Publish taken with
                  | None => ([], false)
                  | Some taken =>
                      let '(out, finished) := Set_scan_publish taken val point1 rest in
                      (PublishEvent {| TriggerObject := val; Object := obj;
                                       Distance := dist;
                                       TimestampUnix := UpdatedUnix val |} :: out,
                       finished)
                  end
                else Set_scan_publish taken val point1 rest
            end
        end
  end.

(** The function literal of lines 49-104, [go func(key string, val
    *api.Object)].  A nil [val] panics at line 53 ([val.Key = key]), before
    anything is staged; a refused [SetEntry] returns at line 65; the
    [PublishObject] of line 67 comes before the read of [val.Point] at line
    69, which panics when the point is nil; a goroutine that waits for ever
    in a publish neither commits nor discards. *)
Definition Set_go_func (taken : option nat) (c : Conditions) (key : string)
    (val : option api_Object) (db : gmap string ValueStruct) :
    ending unit * gmap string ValueStruct * list Published :=
  match val with
  | None => (Panics, db, [])
  | Some val =>
      match Set_staged c key val db with
      | Err _ => (Returns tt, Txn_Discard (NewTransaction db true) db, [])
      | Ok txn =>
          let val := Set_stamp c key val in
          match Publish taken with
          | None => (Blocks, db, [])
          | Some taken =>
              match Point val with
              | None => (Panics, db, [PublishObject val])
              | Some p =>
                  let point1 := {| geo_Lat := Lat p; geo_Lng := Lon p |} in
                  match Set_scan_publish taken val point1 (Iterator_Rewind (now c) txn) with
                  | (events, false) => (Blocks, db, PublishObject val :: events)
                  | (events, true) =>
                      match Txn_Commit (Commit_fault c) txn db with
                      | Err _ => (Returns tt, Txn_Discard txn db, PublishObject val :: events)
                      | Ok db' => (Returns tt, db', PublishObject val :: events)
                      end
                  end
              end
          end
      end
  end.

(** The loop of lines 47-105 and the [wg.Wait()] after it, the goroutines
    run one after the other in the order of the list.  A goroutine that
    panics ends the process; one that waits for ever leaves the others to
    run and [wg.Wait()] waiting. *)
Fixpoint Set_range (taken : string -> option nat) (cond : string -> Conditions)
    (objects : list (string * option api_Object)) (db : gmap string ValueStruct) :
    ending unit * gmap string ValueStruct * list Published :=
  match objects with
  | [] => (Returns tt, db, [])
  | (k, v) :: rest =>
      match Set_go_func (taken k) (cond k) k v db with
      | (Panics, db1, out1) => (Panics, db1, out1)
      | (end1, db1, out1) =>
          let '(end2, db2, out2) := Set_range taken cond rest db1 in
          (match end2 with Returns _ => end1 | _ => end2 end, db2, out1 ++ out2)
      end
  end.

(** [Set(ctx, r)] (lines 45-108): [objects] is [r.Object] in the order its
    goroutines run, a nil value being [None]; [r] itself is the request the
    server decoded and is not nil. *)
Definition GeoDB_Set_call (taken : string -> option nat) (cond : string -> Conditions)
    (objects : list (string * option api_Object)) (db : gmap string ValueStruct) :
    ending (result api_SetResponse) * gmap string ValueStruct * list Published :=
  match Set_range taken cond objects db with
  | (Returns _, db', out) => (Returns (Ok SetResponse), db', out)
  | (Panics, db', out) => (Panics, db', out)
  | (Blocks, db', out) => (Blocks, db', out)
  end.

(** The loop of [Keys]. *)
Fixpoint Keys_loop (items : list Item) : list string :=
  match items with
  | [] => []
  | item :: rest =>
      if negb (Item_UserMeta item =? Meta_Byte ObjectMeta) then Keys_loop rest
      else Item_Key item :: Keys_loop rest
  end.

Definition GeoDB_Keys (now : Z) (db : gmap string ValueStruct) : result (list string) :=
  let txn := NewTransaction db false in
  Ok (Keys_loop (Iterator_Rewind now txn)).

(** The loop of [GetRegex]. *)
Fixpoint GetRegex_loop (Regex : string) (items : list Item)
    (objects : gmap string api_Object) : result (gmap string api_Object) :=
  match items with
  | [] => Ok objects
  | item :: rest =>
      if negb (Item_UserMeta item =? Meta_Byte ObjectMeta) then
        GetRegex_loop Regex rest objects
      else
        match regexp_MatchString Regex (Item_Key item) with
        | Err err => Err err
        | Ok false => GetRegex_loop Regex rest objects
        | Ok true =>
            match proto_Unmarshal (Item_ValueCopy item) with
            | None => Err ErrProtoDecode
            | Some obj =>
                GetRegex_loop Regex rest (<[Item_Key item := obj]> objects)
            end
        end
  end.

Definition GeoDB_GetRegex (now : Z) (db : gmap string ValueStruct) (Regex : string) :
    result (gmap string api_Object) :=
  let txn := NewTransaction db false in
  GetRegex_loop Regex (Iterator_Rewind now txn) ∅.

(** The loop of [Get]. *)
Fixpoint Get_loop (now : Z) (txn : Txn) (keys : list string)
    (objects : gmap string api_Object) : result (gmap string api_Object) :=
  match keys with
  | [] => Ok objects
  | key :: rest =>
      match Txn_Get now txn key with
      | Err err => Err err
      | Ok i =>
          if negb (Item_UserMeta i =? Meta_Byte ObjectMeta) then
            Get_loop now txn rest objects
          else
            match proto_Unmarshal (Item_ValueCopy i) with
            | None => Err ErrProtoDecode
            | Some obj => Get_loop now txn rest (<[key := obj]> objects)
            end
      end
  end.

Definition GeoDB_Get (now : Z) (db : gmap string ValueStruct) (keys : list string) :
    result (gmap string api_Object) :=
  let txn := NewTransaction db false in
  Get_loop now txn keys ∅.

(** The loop of [Seek]: it runs while [ValidForPrefix] holds. *)
Fixpoint Seek_loop (Prefix : string) (items : list Item)
    (objects : gmap string api_Object) : result (gmap string api_Object) :=
  match items with
  | [] => Ok objects
  | item :: rest =>
      if negb (HasPrefix (Item_Key item) Prefix) then Ok objects
      else if negb (Item_UserMeta item =? Meta_Byte ObjectMeta) then
        Seek_loop Prefix rest objects
      else
        match proto_Unmarshal (Item_ValueCopy item) with
        | None => Err ErrProtoDecode
        | Some obj => Seek_loop Prefix rest (<[Item_Key item := obj]> objects)
        end
  end.

Definition GeoDB_Seek (now : Z) (db : gmap string ValueStruct) (Prefix : string) :
    result (gmap string api_Object) :=
  let txn := NewTransaction db false in
  Seek_loop Prefix (Iterator_Seek now txn Prefix) ∅.

(** The loop of [Delete]; [fault k] is the engine's verdict on deleting [k]. *)
Fixpoint Delete_loop (fault : string -> option error) (txn : Txn)
    (keys : list string) : result Txn :=
  match keys with
  | [] => Ok txn
  | key :: rest =>
      match Txn_Delete (fault key) txn key with
      | Err err => Err err
      | Ok txn => Delete_loop fault txn rest
      end
  end.

(** [Delete]: the transaction is opened for writing, every key is marked
    deleted in it, and the function returns; the deferred [Discard] is the
    only thing that happens to the transaction afterwards. *)
Definition GeoDB_Delete (fault : string -> option error)
    (db : gmap string ValueStruct) (keys : list string) :
    result api_DeleteResponse * gmap string ValueStruct :=
  let txn := NewTransaction db true in
  match Delete_loop fault txn keys with
  | Err err => (Err err, Txn_Discard txn db)
  | Ok txn' => (Ok DeleteResponse, Txn_Discard txn' db)
  end.

(** *** Two notions the statements about the read loops use *)

(** The shape the loops of [Seek] and [GetRegex] share: every object-tagged
    item whose key passes [keep] is decoded and added; a decode error ends
    the call. *)
Fixpoint collect (keep : string -> bool) (items : list Item)
    (objects : gmap string api_Object) : result (gmap string api_Object) :=
  match items with
  | [] => Ok objects
  | item :: rest =>
      if negb (Item_UserMeta item =? Meta_Byte ObjectMeta) then
        collect keep rest objects
      else if keep (Item_Key item) then
        match proto_Unmarshal (Item_ValueCopy item) with
        | None => Err ErrProtoDecode
        | Some obj => collect keep rest (<[Item_Key item := obj]> objects)
        end
      else collect keep rest objects
  end.

(** A stored value that carries the object tag and decodes to [obj]. *)
Definition holds_object (v : ValueStruct) (obj : api_Object) : Prop :=
  UserMeta v = Meta_Byte ObjectMeta /\ proto_Unmarshal (Value v) = Some obj.

(** What a successful [Set] of the stamped object [val] leaves under its key. *)
Definition Set_written (val : api_Object) : ValueStruct :=
  {| UserMeta := Meta_Byte ObjectMeta;
     ExpiresAt := uint64 (ExpiresUnix val);
     Value := (proto_Marshal val).1 |}.

(** *** The streaming calls *)

(** One iteration of the loop of [Stream] (lines 228-252).  [None]: the case
    cannot fire, because the receive is from a nil channel.  The list holds
    the messages passed to [ss.Send]; a failed send is only logged. *)
Definition Stream_iteration (Regex clientID : string) (h : Hub)
    (c : select_case api_Object) : option (Hub * list api_Object * control) :=
  match c with
  | Received msg =>
      match GetClientObjectStream clientID h with
      | None => None
      | Some _ =>
          if negb (String.eqb Regex "") then
            match regexp_MatchString Regex (Key msg) with
            | Err err => Some (h, [], Return err)
            | Ok true => Some (h, [msg], Continue)
            | Ok false => Some (h, [], Continue)
            end
          else Some (h, [msg], Continue)
      end
  | ContextDone => Some (RemoveObjectStreamClient clientID h, [], Continue)
  end.

(** The loop of [Stream] run over the cases that fire, one per iteration.
    The last component is [Some err] when the function has returned [err]
    and [None] while it is still inside the loop. *)
Fixpoint Stream_loop (Regex clientID : string) (h : Hub)
    (cases : list (select_case api_Object)) : Hub * list api_Object * option error :=
  match cases with
  | [] => (h, [], None)
  | c :: rest =>
      match Stream_iteration Regex clientID h c with
      | None => (h, [], None)
      | Some (h1, out1, Return err) => (h1, out1, Some err)
      | Some (h1, out1, Continue) =>
          let '(h2, out2, r) := Stream_loop Regex clientID h1 rest in
          (h2, out1 ++ out2, r)
      end
  end.

(** [Stream(r, ss)] with [r.ClientId] and [r.Regex]. *)
Definition GeoDB_Stream (uuid : string) (ch : chan) (ClientId Regex : string)
    (h : Hub) (cases : list (select_case api_Object)) :
    Hub * list api_Object * option error :=
  let '(clientID, h) := AddObjectStreamClient uuid ch ClientId h in
  Stream_loop Regex clientID h cases.

(** One iteration of the loop of [StreamEvents] (lines 259-283). *)
Definition StreamEvents_iteration (Regex clientID : string) (h : Hub)
    (c : select_case api_Event) : option (Hub * list api_Event * control) :=
  match c with
  | Received event =>
      match GetClientEventStream clientID h with
      | None => None
      | Some _ =>
          if negb (String.eqb Regex "") then
            match regexp_MatchString Regex (Key (TriggerObject event)) with
            | Err err => Some (h, [], Return err)
            | Ok true => Some (h, [event], Continue)
            | Ok false => Some (h, [], Continue)
            end
          else Some (h, [event], Continue)
      end
  | ContextDone => Some (RemoveObjectStreamClient clientID h, [], Continue)
  end.

Fixpoint StreamEvents_loop (Regex clientID : string) (h : Hub)
    (cases : list (select_case api_Event)) : Hub * list api_Event * option error :=
  match cases with
  | [] => (h, [], None)
  | c :: rest =>
      match StreamEvents_iteration Regex clientID h c with
      | None => (h, [], None)
      | Some (h1, out1, Return err) => (h1, out1, Some err)
      | Some (h1, out1, Continue) =>
          let '(h2, out2, r) := StreamEvents_loop Regex clientID h1 rest in
          (h2, out1 ++ out2, r)
      end
  end.

(** [StreamEvents(r, ss)]: the registration is [AddObjectStreamClient]. *)
Definition GeoDB_StreamEvents (uuid : string) (ch : chan) (ClientId Regex : string)
    (h : Hub) (cases : list (select_case api_Event)) :
    Hub * list api_Event * option error :=
  let '(clientID, h) := AddObjectStreamClient uuid ch ClientId h in
  StreamEvents_loop Regex clientID h cases.

End geodb.
End services.

(** ** A concrete instance of the libraries

    It serves to run the model on concrete data.  Serialised bytes are the
    object itself, or [None] for bytes that do not decode; a pattern is a
    literal string matched anywhere in the subject, and one that contains an
    opening parenthesis does not compile; the distance between two points is
    the sum of their coordinate differences, a degree counted as 111195 m. *)
Module demo.
Import badger stream services.

Definition contains (needle s : string) : bool :=
  match String.index 0 needle s with Some _ => true | None => false end.

Definition distance (p q : geo_Point) (haversine : bool) : float :=
  ((PrimFloat.abs (geo_Lat p - geo_Lat q) + PrimFloat.abs (geo_Lng p - geo_Lng q))
   * 111195)%float.

Definition libraries : External := {|
  Bytes := option api_Object;
  proto_Marshal := fun o => (Some o, None);
  proto_Unmarshal := fun b => b;
  GeoDistanceFrom := distance;
  Regexp := string;
  regexp_Compile := fun p => if contains "(" p then None else Some p;
  Regexp_MatchString := fun re s => contains re s
|}.

(** An object at ([lat], [lon]) with radius [r] and expiry [expires]. *)
Definition object_at (lat lon : float) (r expires : Z) : api_Object :=
  {| Key := ""; Point := Some {| Lat := lat; Lon := lon |}; Radius := r;
     UpdatedUnix := 0; ExpiresUnix := expires; Payload := [] |}.

(** An object without a point. *)
Definition pointless : api_Object :=
  {| Key := ""; Point := None; Radius := 1; UpdatedUnix := 0;
     ExpiresUnix := 0; Payload := [] |}.

(** A clock at 100 s and an engine that accepts everything. *)
Definition fair : Conditions :=
  {| now := 100; SetEntry_fault := None; Commit_fault := None |}.

(** The same clock with an engine that refuses the commit. *)
Definition conflicting : Conditions :=
  {| now := 100; SetEntry_fault := None; Commit_fault := Some ErrConflict |}.

(** The same clock with an engine that refuses the entry, as badger does for
    an empty key. *)
Definition refusing : Conditions :=
  {| now := 100; SetEntry_fault := Some (ErrEngine "Key cannot be empty");
     Commit_fault := None |}.

(** A hub that takes every publish, and one whose dispatchers receive
    nothing. *)
Definition attentive : string -> option nat := fun _ => None.
Definition deaf : string -> option nat := fun _ => Some O.

(** An object as [Set] stamps it under key [k] at time 100. *)
Definition stamped (k : string) (o : api_Object) : api_Object :=
  with_UpdatedUnix 100 (with_Key k o).

(** What [Set] of [o] under key [k] at time 100 leaves in the store. *)
Definition stored (k : string) (o : api_Object) : @ValueStruct libraries :=
  @Build_ValueStruct libraries (Meta_Byte ObjectMeta) (uint64 (ExpiresUnix o))
    (Some (stamped k o)).

(** A store that holds one object, under the key "a". *)
Definition object_a : api_Object := object_at 0 0 5 0.

Definition db_a : gmap string (@ValueStruct libraries) :=
  {[ "a"%string := stored "a" object_a ]}.

(** An object some 6.8 m east of [object_a], and one a degree east of it. *)
Definition near : float := 0.00006103515625.
Definition object_near : api_Object := object_at 0 near 5 0.
Definition object_far : api_Object := object_at 0 1 5 0.

(** The transaction of [Set] once it has staged [object_near] under "b" over
    [db_a]. *)
Definition staged_near : @Txn libraries :=
  @Build_Txn libraries true db_a {[ "b"%string := Some (stored "b" object_near) ]}.

(** The same libraries with a serialiser that reports an error next to the
    bytes it returns. *)
Definition reporting : External := {|
  Bytes := option api_Object;
  proto_Marshal := fun o => (Some o, Some ErrProtoEncode);
  proto_Unmarshal := fun b => b;
  GeoDistanceFrom := distance;
  Regexp := string;
  regexp_Compile := fun p => if contains "(" p then None else Some p;
  Regexp_MatchString := fun re s => contains re s
|}.

(** The object protobuf decodes from no bytes. *)
Definition empty_object : api_Object :=
  {| Key := ""; Point := None; Radius := 0; UpdatedUnix := 0;
     ExpiresUnix := 0; Payload := [] |}.

(** The same libraries with a serialiser that fails: it returns no bytes
    next to its error, and no bytes decode to the empty object. *)
Definition failing : External := {|
  Bytes := option api_Object;
  proto_Marshal := fun o => (None, Some ErrProtoEncode);
  proto_Unmarshal := fun b => Some (default empty_object b);
  GeoDistanceFrom := distance;
  Regexp := string;
  regexp_Compile := fun p => if contains "(" p then None else Some p;
  Regexp_MatchString := fun re s => contains re s
|}.

(** A store that holds one record of another class, under the key "e". *)
Definition db_e : gmap string (@ValueStruct libraries) :=
  {[ "e"%string := @Build_ValueStruct libraries (Meta_Byte EventMeta) 0 None ]}.

End demo.

(** * Proofs *)

Import badger stream services.

(** The statements about [Set], [Get], [Seek], [GetRegex] and the streaming
    calls are proved for every instance of [External]; those marked with a
    claim number are the ones the specification is checked against. *)

(** ** The order of keys *)

Lemma ascii_compare_refl (a : ascii) : Ascii.compare a a = Eq.
Proof. unfold Ascii.compare. apply N.compare_refl. Qed.

Lemma ascii_compare_Lt_trans (a b c : ascii) :
  Ascii.compare a b = Lt -> Ascii.compare b c = Lt -> Ascii.compare a c = Lt.
Proof.
  unfold Ascii.compare. rewrite !N.compare_lt_iff. apply N.lt_trans.
Qed.

Lemma ascii_compare_Lt_neq (a b : ascii) : Ascii.compare a b = Lt -> a <> b.
Proof. intros H ->. rewrite ascii_compare_refl in H. discriminate. Qed.

Lemma ascii_compare_Gt_Lt (a b : ascii) :
  Ascii.compare a b = Gt -> Ascii.compare b a = Lt.
Proof. rewrite (Ascii.compare_antisym b a). intros ->. reflexivity. Qed.

Lemma string_compare_refl (s : string) : String.compare s s = Eq.
Proof.
  induction s as [|a s IH]; simpl; [reflexivity|].
  rewrite ascii_compare_refl. exact IH.
Qed.

Lemma string_leb_refl (s : string) : String.leb s s = true.
Proof. unfold String.leb. rewrite string_compare_refl. reflexivity. Qed.

Lemma string_leb_trans (a b c : string) :
  String.leb a b = true -> String.leb b c = true -> String.leb a c = true.
Proof.
  unfold String.leb. revert b c.
  induction a as [|x a IH]; intros [|y b] [|z c]; simpl; try done.
  destruct (Ascii.compare x y) eqn:Hxy; try done;
    destruct (Ascii.compare y z) eqn:Hyz; try done.
  - apply Ascii.compare_eq_iff in Hxy, Hyz. subst.
    rewrite ascii_compare_refl. apply IH.
  - apply Ascii.compare_eq_iff in Hxy. subst. rewrite Hyz. done.
  - apply Ascii.compare_eq_iff in Hyz. subst. rewrite Hxy. done.
  - rewrite (ascii_compare_Lt_trans _ _ _ Hxy Hyz). done.
Qed.

Lemma string_ltb_leb (a b : string) :
  String.ltb a b = false -> String.leb b a = true.
Proof.
  unfold String.ltb, String.leb. rewrite (String.compare_antisym b a).
  destruct (String.compare a b); simpl; done.
Qed.

#[global] Instance bytes_le_refl : Reflexive bytes_le.
Proof. intros s. apply string_leb_refl. Qed.

#[global] Instance bytes_le_trans : Transitive bytes_le.
Proof. intros a b c. apply string_leb_trans. Qed.

#[global] Instance bytes_le_total : Total bytes_le.
Proof. intros a b. apply String.leb_total. Qed.

(** A key that has the prefix is not below the prefix. *)
Lemma HasPrefix_not_below (s pre : string) :
  HasPrefix s pre = true -> String.ltb s pre = false.
Proof.
  unfold HasPrefix, String.ltb. revert s.
  induction pre as [|a pre IH]; intros [|b s]; simpl; try done.
  destruct (ascii_dec a b) as [->|]; [|done].
  rewrite ascii_compare_refl. apply IH.
Qed.

(** Past the keys that carry a prefix, no later key carries it. *)
Lemma HasPrefix_gone (pre s t : string) :
  bytes_le pre s -> HasPrefix s pre = false -> bytes_le s t ->
  HasPrefix t pre = false.
Proof.
  unfold bytes_le, HasPrefix, String.leb. revert s t.
  induction pre as [|a pre IH]; intros [|b s] [|c t]; simpl; try done.
  destruct (ascii_dec a b) as [->|Hab].
  - rewrite ascii_compare_refl. intros Hps Hpre.
    destruct (Ascii.compare b c) eqn:Hbc; try done.
    + apply Ascii.compare_eq_iff in Hbc. subst.
      destruct (ascii_dec c c); [|done]. intros. by eapply IH.
    + intros _. apply ascii_compare_Lt_neq in Hbc.
      destruct (ascii_dec b c); done.
  - destruct (Ascii.compare a b) eqn:Hab'; try done.
    { apply Ascii.compare_eq_iff in Hab'. done. }
    intros _ _. destruct (Ascii.compare b c) eqn:Hbc; try done.
    + apply Ascii.compare_eq_iff in Hbc. subst.
      intros _. destruct (ascii_dec a c); done.
    + intros _. pose proof (ascii_compare_Lt_trans _ _ _ Hab' Hbc) as Hac.
      apply ascii_compare_Lt_neq in Hac. destruct (ascii_dec a c); done.
Qed.

Lemma HasPrefix_empty (s : string) : HasPrefix s "" = true.
Proof. unfold HasPrefix. destruct s; reflexivity. Qed.

(** ** The engine model *)

Section engine_facts.
Context {ext : External}.

Lemma lookup_overlay (pending : gmap string (option ValueStruct))
    (base : gmap string ValueStruct) (k : string) :
  overlay pending base !! k =
  match pending !! k with Some w => w | None => base !! k end.
Proof.
  unfold overlay. rewrite lookup_merge.
  destruct (pending !! k), (base !! k); reflexivity.
Qed.

Lemma overlay_empty (base : gmap string ValueStruct) : overlay ∅ base = base.
Proof. apply map_eq. intros k. rewrite lookup_overlay, lookup_empty. done. Qed.

Lemma lookup_Txn_view (now : Z) (txn : Txn) (k : string) (v : ValueStruct) :
  Txn_view now txn !! k = Some v <->
  overlay (pendingWrites txn) (snapshot txn) !! k = Some v /\ isExpired now v = false.
Proof. unfold Txn_view. rewrite map_lookup_filter_Some. done. Qed.

(** A read-only transaction sees the unexpired part of the store. *)
Lemma lookup_Txn_view_read (now : Z) (db : gmap string ValueStruct) k v :
  Txn_view now (NewTransaction db false) !! k = Some v <->
  db !! k = Some v /\ isExpired now v = false.
Proof. rewrite lookup_Txn_view. simpl. rewrite overlay_empty. done. Qed.

#[global] Instance Item_le_trans : Transitive Item_le.
Proof. intros a b c. unfold Item_le. apply bytes_le_trans. Qed.

#[global] Instance Item_le_total : Total Item_le.
Proof. intros a b. unfold Item_le. apply bytes_le_total. Qed.

(** The iterator yields exactly the visible entries, *)
Lemma elem_of_Iterator_Rewind (now : Z) (txn : Txn) (k : string) (v : ValueStruct) :
  (k, v) ∈ Iterator_Rewind now txn <-> Txn_view now txn !! k = Some v.
Proof.
  unfold Iterator_Rewind. rewrite merge_sort_Permutation.
  apply elem_of_map_to_list.
Qed.

(** each key once, *)
Lemma NoDup_Iterator_Rewind (now : Z) (txn : Txn) :
  NoDup (Iterator_Rewind now txn).*1.
Proof.
  unfold Iterator_Rewind. rewrite merge_sort_Permutation.
  apply NoDup_fst_map_to_list.
Qed.

(** in ascending key order. *)
Lemma Sorted_Iterator_Rewind (now : Z) (txn : Txn) :
  StronglySorted Item_le (Iterator_Rewind now txn).
Proof. apply StronglySorted_merge_sort; apply _. Qed.

End engine_facts.

(** ** [float64] of a non-negative [int64] is not below zero *)

Lemma shr_1_nonneg (mrs : shr_record) : 0 <= shr_m mrs -> 0 <= shr_m (shr_1 mrs).
Proof.
  destruct mrs as [m r s]. simpl.
  destruct m as [|[p|p|]|p]; simpl; lia.
Qed.

Lemma iter_shr_1_nonneg (p : positive) (mrs : shr_record) :
  0 <= shr_m mrs -> 0 <= shr_m (SpecFloat.iter_pos shr_1 p mrs).
Proof.
  revert mrs. induction p as [p IH|p IH|]; intros mrs H; simpl.
  - apply IH, IH. by apply shr_1_nonneg.
  - by apply IH, IH.
  - by apply shr_1_nonneg.
Qed.

Lemma shr_fexp_nonneg (m e : Z) (l : location) :
  0 <= m -> 0 <= shr_m (shr_fexp prec emax m e l).1.
Proof.
  intros Hm. unfold shr_fexp, shr.
  assert (0 <= shr_m (shr_record_of_loc m l)) as H0.
  { unfold shr_record_of_loc. destruct l as [|[]]; simpl; done. }
  destruct (fexp prec emax (Zdigits2 m + e) - e); simpl; try done.
  by apply iter_shr_1_nonneg.
Qed.

Lemma round_nearest_even_nonneg (m : Z) (l : location) :
  0 <= m -> 0 <= round_nearest_even m l.
Proof.
  intros Hm. unfold round_nearest_even.
  destruct l as [|[]]; try lia. destruct (Z.even m); lia.
Qed.

Lemma SFleb_zero_binary_round_aux (m e : Z) (l : location) :
  0 <= m -> SFleb (S754_zero false) (binary_round_aux prec emax false m e l) = true.
Proof.
  intros Hm. unfold binary_round_aux.
  destruct (shr_fexp prec emax m e l) as [mrs1 e1] eqn:H1.
  pose proof (shr_fexp_nonneg m e l Hm) as Hn1.
  rewrite H1 in Hn1. simpl in Hn1.
  destruct (shr_fexp prec emax
              (round_nearest_even (shr_m mrs1) (loc_of_shr_record mrs1)) e1 loc_Exact)
    as [mrs2 e2] eqn:H2.
  pose proof (shr_fexp_nonneg _ e1 loc_Exact
                (round_nearest_even_nonneg _ (loc_of_shr_record mrs1) Hn1)) as Hn2.
  rewrite H2 in Hn2. simpl in Hn2.
  destruct (shr_m mrs2) as [|q|q]; [reflexivity| |lia].
  destruct (e2 <=? emax - prec); reflexivity.
Qed.

Lemma SFleb_zero_binary_normalize (m : Z) :
  0 <= m -> SFleb (S754_zero false) (binary_normalize prec emax m 0 false) = true.
Proof.
  intros Hm. unfold binary_normalize.
  destruct m as [|p|p]; [reflexivity| |lia].
  unfold binary_round.
  destruct (shl_align p 0 (fexp prec emax (Z.pos (digits2_pos p) + 0))) as [mz ez].
  apply SFleb_zero_binary_round_aux. lia.
Qed.

Lemma float64_nonneg (z : Z) :
  0 <= z <= max_int64 -> PrimFloat.leb 0 (float64 z) = true.
Proof.
  intros [Hlo Hhi]. unfold float64, float64_magnitude, max_int64 in *.
  destruct (Z.ltb_spec z 0); [lia|].
  destruct (Z.eqb_spec z (2 ^ 63)); [lia|].
  rewrite leb_spec, of_uint63_spec.
  rewrite Uint63.of_Z_spec, Z.mod_small by (change Uint63.wB with (2 ^ 63); lia).
  change (Prim2SF 0) with (S754_zero false).
  by apply SFleb_zero_binary_normalize.
Qed.

Lemma int64_add_small (a b : Z) :
  - 2 ^ 63 <= a + b <= max_int64 -> int64_add a b = a + b.
Proof.
  unfold int64_add, int64_wrap, max_int64. intros H.
  rewrite Z.mod_small by lia. lia.
Qed.

(** ** The read loops: [Seek], [GetRegex], [Keys] *)

Section read_loops.
Context {ext : External}.

Ltac tag_cases v :=
  unfold Item_UserMeta, Item_Key, Item_ValueCopy; simpl;
  destruct (Z.eqb_spec (UserMeta v) (Meta_Byte ObjectMeta)); simpl.

Lemma collect_spec (keep : string -> bool) (l : list Item) :
  NoDup l.*1 ->
  (forall k v, (k, v) ∈ l -> UserMeta v = Meta_Byte ObjectMeta -> keep k = true ->
               is_Some (proto_Unmarshal (Value v))) ->
  forall acc, exists m,
    collect keep l acc = Ok m /\
    forall k obj,
      m !! k = Some obj <->
      (exists v, (k, v) ∈ l /\ keep k = true /\ holds_object v obj) \/
      ((forall v, (k, v) ∈ l -> UserMeta v = Meta_Byte ObjectMeta -> keep k = false) /\
       acc !! k = Some obj).
Proof.
  induction l as [|[k0 v0] rest IH]; intros Hnd Hdec acc.
  - exists acc. split; [reflexivity|]. intros k obj. split.
    + intros H. right. split; [|done]. intros v Hv. by apply elem_of_nil in Hv.
    + intros [(v & Hv & _)|[_ H]]; [by apply elem_of_nil in Hv|done].
  - rewrite fmap_cons in Hnd. apply NoDup_cons in Hnd as [Hk0 Hnd].
    assert (Hrest : forall k v, (k, v) ∈ rest -> UserMeta v = Meta_Byte ObjectMeta ->
                      keep k = true -> is_Some (proto_Unmarshal (Value v))).
    { intros k v Hv. apply Hdec. by apply elem_of_cons; right. }
    assert (Hfresh : forall v, (k0, v) ∉ rest).
    { intros v Hv. apply Hk0. apply list_elem_of_fmap. by exists (k0, v). }
    simpl. tag_cases v0; [destruct (keep k0) eqn:Hkeep|].
    + destruct (Hdec k0 v0) as [obj0 Hobj0]; [by apply elem_of_cons; left|done..|].
      rewrite Hobj0.
      destruct (IH Hnd Hrest (<[k0 := obj0]> acc)) as (m & -> & Hm).
      exists m. split; [reflexivity|]. intros k obj. rewrite Hm. split.
      * intros [(v & Hv & Hkp & Hho)|[Hno Hacc]].
        { left. exists v. split; [by apply elem_of_cons; right|done]. }
        destruct (decide (k = k0)) as [->|Hne].
        { rewrite lookup_insert_eq in Hacc. injection Hacc as <-.
          left. exists v0. split; [by apply elem_of_cons; left|].
          split; [done|]. by split. }
        rewrite lookup_insert_ne in Hacc by done. right. split; [|done].
        intros v Hv. apply elem_of_cons in Hv as [[= -> ->]|Hv]; [done|].
        by apply Hno.
      * intros [(v & Hv & Hkp & Hho)|[Hno Hacc]].
        { apply elem_of_cons in Hv as [[= -> ->]|Hv].
          - right. split; [intros v Hv; by apply Hfresh in Hv|].
            destruct Hho as [_ Hho]. rewrite lookup_insert_eq. congruence.
          - left. by exists v. }
        assert (k <> k0) as Hne.
        { intros ->. specialize (Hno v0). rewrite Hkeep in Hno.
          discriminate Hno; [by apply elem_of_cons; left|done]. }
        right. split; [|by rewrite lookup_insert_ne].
        intros v Hv. apply Hno. by apply elem_of_cons; right.
    + destruct (IH Hnd Hrest acc) as (m & -> & Hm).
      exists m. split; [reflexivity|]. intros k obj. rewrite Hm. split.
      * intros [(v & Hv & Hkp & Hho)|[Hno Hacc]].
        { left. exists v. split; [by apply elem_of_cons; right|done]. }
        right. split; [|done]. intros v Hv.
        apply elem_of_cons in Hv as [[= -> ->]|Hv]; [done|]. by apply Hno.
      * intros [(v & Hv & Hkp & Hho)|[Hno Hacc]].
        { apply elem_of_cons in Hv as [[= -> ->]|Hv]; [congruence|].
          left. by exists v. }
        right. split; [|done]. intros v Hv. apply Hno. by apply elem_of_cons; right.
    + destruct (IH Hnd Hrest acc) as (m & -> & Hm).
      exists m. split; [reflexivity|]. intros k obj. rewrite Hm. split.
      * intros [(v & Hv & Hkp & Hho)|[Hno Hacc]].
        { left. exists v. split; [by apply elem_of_cons; right|done]. }
        right. split; [|done]. intros v Hv.
        apply elem_of_cons in Hv as [[= -> ->]|Hv]; [done|]. by apply Hno.
      * intros [(v & Hv & Hkp & Hho)|[Hno Hacc]].
        { apply elem_of_cons in Hv as [[= -> ->]|Hv]; [by destruct Hho|].
          left. by exists v. }
        right. split; [|done]. intros v Hv. apply Hno. by apply elem_of_cons; right.
Qed.

(** One object-tagged item that passes [keep] and does not decode fails the
    whole loop. *)
Lemma collect_decode_error (keep : string -> bool) (l : list Item) k v :
  (k, v) ∈ l -> UserMeta v = Meta_Byte ObjectMeta -> keep k = true ->
  proto_Unmarshal (Value v) = None ->
  forall acc, collect keep l acc = Err ErrProtoDecode.
Proof.
  intros Hin Htag Hkeep Hbad.
  induction l as [|[k0 v0] rest IH]; intros acc; [by apply elem_of_nil in Hin|].
  apply elem_of_cons in Hin as [[= <- <-]|Hin]; simpl.
  - tag_cases v; [|done]. by rewrite Hkeep, Hbad.
  - tag_cases v0; [|by apply IH].
    destruct (keep k0); [|by apply IH].
    destruct (proto_Unmarshal (Value v0)); [by apply IH|done].
Qed.

Lemma collect_no_prefix (pre : string) (l : list Item) acc :
  Forall (fun i => HasPrefix (Item_Key i) pre = false) l ->
  collect (fun k => HasPrefix k pre) l acc = Ok acc.
Proof.
  induction 1 as [|[k v] rest Hk _ IH]; simpl; [done|].
  unfold Item_Key in Hk. simpl in Hk.
  tag_cases v; [by rewrite Hk|done].
Qed.

(** From a position at or after the prefix, stopping at the first key
    without the prefix loses nothing: the keys are in order. *)
Lemma Seek_loop_collect (pre : string) (l : list Item) :
  StronglySorted Item_le l ->
  Forall (fun i => bytes_le pre (Item_Key i)) l ->
  forall acc, Seek_loop pre l acc = collect (fun k => HasPrefix k pre) l acc.
Proof.
  induction 1 as [|[k v] rest Hs IH Hle]; intros Hge acc; [done|].
  apply Forall_cons in Hge as [Hk Hge]. simpl.
  unfold Item_Key in *. simpl in *.
  destruct (HasPrefix k pre) eqn:Hp; simpl.
  - unfold Item_UserMeta, Item_ValueCopy. simpl.
    destruct (negb _); [by apply IH|].
    destruct (proto_Unmarshal _); [by apply IH|done].
  - assert (Forall (fun i => HasPrefix (Item_Key i) pre = false) rest) as Hnone.
    { eapply Forall_impl; [exact Hle|]. intros [k' v'] Hkk'.
      eapply HasPrefix_gone; [exact Hk|exact Hp|exact Hkk']. }
    unfold Item_UserMeta. simpl.
    destruct (negb _); by rewrite collect_no_prefix.
Qed.

Lemma Seek_skip_collect (pre : string) (l : list Item) :
  StronglySorted Item_le l ->
  forall acc,
    Seek_loop pre (Iterator_skip pre l) acc = collect (fun k => HasPrefix k pre) l acc.
Proof.
  induction 1 as [|[k v] rest Hs IH Hle]; intros acc; [done|].
  simpl Iterator_skip.
  destruct (String.ltb k pre) eqn:Hlt.
  - rewrite IH. simpl. unfold Item_Key, Item_UserMeta. simpl.
    destruct (HasPrefix k pre) eqn:Hp.
    { apply HasPrefix_not_below in Hp. congruence. }
    by destruct (negb _).
  - apply Seek_loop_collect; [by constructor|].
    apply string_ltb_leb in Hlt. constructor; [exact Hlt|].
    eapply Forall_impl; [exact Hle|]. intros [k' v'] Hkk'.
    unfold Item_le, Item_Key in *. simpl in *. by etrans.
Qed.

Lemma GetRegex_loop_collect (Regex : string) (re : Regexp) (l : list Item) :
  regexp_Compile Regex = Some re ->
  forall acc, GetRegex_loop Regex l acc = collect (Regexp_MatchString re) l acc.
Proof.
  intros Hre. induction l as [|[k v] rest IH]; intros acc; [done|].
  simpl. unfold regexp_MatchString. rewrite Hre.
  destruct (negb _); [by apply IH|].
  destruct (Regexp_MatchString re _); [|by apply IH].
  destruct (proto_Unmarshal _); [by apply IH|done].
Qed.

(** A pattern that does not compile is only noticed at the first
    object-tagged item. *)
Lemma GetRegex_loop_invalid (Regex : string) (l : list Item) :
  regexp_Compile Regex = None ->
  forall acc,
    GetRegex_loop Regex l acc =
    if existsb (fun i => Item_UserMeta i =? Meta_Byte ObjectMeta) l
    then Err ErrRegexpSyntax else Ok acc.
Proof.
  intros Hre. induction l as [|[k v] rest IH]; intros acc; [done|].
  simpl. unfold regexp_MatchString. rewrite Hre.
  destruct (Item_UserMeta (k, v) =? Meta_Byte ObjectMeta); simpl; [done|apply IH].
Qed.

Lemma elem_of_Keys_loop (l : list Item) (k : string) :
  k ∈ Keys_loop l <-> exists v, (k, v) ∈ l /\ UserMeta v = Meta_Byte ObjectMeta.
Proof.
  induction l as [|[k0 v0] rest IH]; simpl.
  - split; [intros H; by apply elem_of_nil in H|].
    intros (v & H & _). by apply elem_of_nil in H.
  - tag_cases v0.
    + rewrite elem_of_cons, IH. split.
      * intros [->|(v & Hv & Ht)]; [exists v0|exists v];
          (split; [apply elem_of_cons; by auto|done]).
      * intros (v & Hv & Ht). apply elem_of_cons in Hv as [[= -> ->]|Hv];
          [by left|right; by exists v].
    + rewrite IH. split.
      * intros (v & Hv & Ht). exists v. split; [by apply elem_of_cons; right|done].
      * intros (v & Hv & Ht). apply elem_of_cons in Hv as [[= -> ->]|Hv];
          [done|by exists v].
Qed.

End read_loops.

Section reads.
Context {ext : External}.

Lemma existsb_object_item (l : list Item) :
  existsb (fun i => Item_UserMeta i =? Meta_Byte ObjectMeta) l = true <->
  exists k v, (k, v) ∈ l /\ UserMeta v = Meta_Byte ObjectMeta.
Proof.
  rewrite existsb_exists. split.
  - intros ([k v] & Hin & Ht). exists k, v. split; [by apply list_elem_of_In|].
    by apply Z.eqb_eq in Ht.
  - intros (k & v & Hin & Ht). exists (k, v). split; [by apply list_elem_of_In|].
    by apply Z.eqb_eq.
Qed.

(** A prefixed object entry that does not decode fails the whole [Seek]. *)
Lemma Seek_decode_error (now : Z) (db : gmap string ValueStruct) (Prefix k : string) v :
  Txn_view now (NewTransaction db false) !! k = Some v ->
  UserMeta v = Meta_Byte ObjectMeta -> HasPrefix k Prefix = true ->
  proto_Unmarshal (Value v) = None ->
  GeoDB_Seek now db Prefix = Err ErrProtoDecode.
Proof.
  intros Hv Ht Hp Hbad. unfold GeoDB_Seek, Iterator_Seek.
  rewrite Seek_skip_collect by apply Sorted_Iterator_Rewind.
  eapply collect_decode_error; [|exact Ht|exact Hp|exact Hbad].
  by apply elem_of_Iterator_Rewind.
Qed.

(** C4 (as amended).  For every prefix, the empty one included, [Seek]
    returns exactly the visible object-tagged entries whose key has the
    prefix, provided each of them decodes: its keys are those of [Keys]
    that have the prefix.  With the empty prefix every key qualifies, so
    [Seek] of the empty prefix is the full scan: it returns an object for
    every key of [Keys].  If one of the entries does not decode, the call
    fails as a whole. *)
Theorem Seek_returns_prefixed_objects (now : Z) (db : gmap string ValueStruct)
    (Prefix : string) :
  ((forall k v, Txn_view now (NewTransaction db false) !! k = Some v ->
      UserMeta v = Meta_Byte ObjectMeta -> HasPrefix k Prefix = true ->
      is_Some (proto_Unmarshal (Value v))) ->
   exists m,
     GeoDB_Seek now db Prefix = Ok m /\
     (forall k obj,
        m !! k = Some obj <->
        HasPrefix k Prefix = true /\
        exists v, Txn_view now (NewTransaction db false) !! k = Some v /\
                  holds_object v obj) /\
     (forall keys k, GeoDB_Keys now db = Ok keys ->
        is_Some (m !! k) <-> k ∈ keys /\ HasPrefix k Prefix = true) /\
     (Prefix = EmptyString ->
      forall keys k, GeoDB_Keys now db = Ok keys -> is_Some (m !! k) <-> k ∈ keys)) /\
  (forall k v, Txn_view now (NewTransaction db false) !! k = Some v ->
     UserMeta v = Meta_Byte ObjectMeta -> HasPrefix k Prefix = true ->
     proto_Unmarshal (Value v) = None ->
     GeoDB_Seek now db Prefix = Err ErrProtoDecode).
Proof.
  split; [|intros k v; apply Seek_decode_error].
  intros Hdec. unfold GeoDB_Seek, Iterator_Seek.
  rewrite Seek_skip_collect by apply Sorted_Iterator_Rewind.
  destruct (collect_spec (fun k => HasPrefix k Prefix)
              (Iterator_Rewind now (NewTransaction db false))
              (NoDup_Iterator_Rewind _ _)) with (acc := (∅ : gmap string api_Object))
    as (m & Hm & Hspec).
  { intros k v Hin. apply Hdec. by apply elem_of_Iterator_Rewind. }
  assert (Hlook : forall k obj,
    m !! k = Some obj <->
    HasPrefix k Prefix = true /\
    exists v, Txn_view now (NewTransaction db false) !! k = Some v /\ holds_object v obj).
  { intros k obj. rewrite Hspec. split.
    - intros [(v & Hin & Hp & Hho)|[_ Hacc]]; [|by rewrite lookup_empty in Hacc].
      split; [done|]. exists v. split; [by apply elem_of_Iterator_Rewind|done].
    - intros (Hp & v & Hv & Hho). left. exists v.
      split; [by apply elem_of_Iterator_Rewind|done]. }
  assert (Hkeys : forall keys k, GeoDB_Keys now db = Ok keys ->
    is_Some (m !! k) <-> k ∈ keys /\ HasPrefix k Prefix = true).
  { intros keys k [= <-]. rewrite elem_of_Keys_loop. split.
    - intros [obj Hobj]. apply Hlook in Hobj as (Hp & v & Hv & Ht & _).
      split; [|done]. exists v. split; [by apply elem_of_Iterator_Rewind|done].
    - intros [(v & Hin & Ht) Hp]. apply elem_of_Iterator_Rewind in Hin.
      destruct (Hdec k v Hin Ht Hp) as [obj Hobj]. exists obj.
      apply Hlook. split; [done|]. exists v. by repeat split. }
  exists m. split; [exact Hm|]. split; [exact Hlook|]. split; [exact Hkeys|].
  intros -> keys k Hk. split.
  - intros H. by apply (Hkeys keys k Hk) in H as [? _].
  - intros H. apply (Hkeys keys k Hk). split; [done|apply HasPrefix_empty].
Qed.

(** C7 (as amended).  [GetRegex] compiles the pattern once per
    object-tagged entry it meets.  A pattern that does not compile fails the
    call with the pattern error when the store shows at least one
    object-tagged entry, and is answered with the empty result when it shows
    none.  With a pattern that compiles, the result holds exactly the
    visible object-tagged entries whose key matches, provided each of them
    decodes; if one of them does not, the call fails as a whole. *)
Theorem GetRegex_by_pattern (now : Z) (db : gmap string ValueStruct) (Regex : string) :
  match regexp_Compile Regex with
  | None =>
      ((exists k v, Txn_view now (NewTransaction db false) !! k = Some v /\
                    UserMeta v = Meta_Byte ObjectMeta) ->
       GeoDB_GetRegex now db Regex = Err ErrRegexpSyntax) /\
      ((forall k v, Txn_view now (NewTransaction db false) !! k = Some v ->
                    UserMeta v <> Meta_Byte ObjectMeta) ->
       GeoDB_GetRegex now db Regex = Ok ∅)
  | Some re =>
      ((forall k v, Txn_view now (NewTransaction db false) !! k = Some v ->
          UserMeta v = Meta_Byte ObjectMeta -> Regexp_MatchString re k = true ->
          is_Some (proto_Unmarshal (Value v))) ->
       exists m,
         GeoDB_GetRegex now db Regex = Ok m /\
         forall k obj,
           m !! k = Some obj <->
           Regexp_MatchString re k = true /\
           exists v, Txn_view now (NewTransaction db false) !! k = Some v /\
                     holds_object v obj) /\
      (forall k v, Txn_view now (NewTransaction db false) !! k = Some v ->
         UserMeta v = Meta_Byte ObjectMeta -> Regexp_MatchString re k = true ->
         proto_Unmarshal (Value v) = None ->
         GeoDB_GetRegex now db Regex = Err ErrProtoDecode)
  end.
Proof.
  destruct (regexp_Compile Regex) as [re|] eqn:Hre.
  - split.
    2:{ intros k v Hv Ht Hm Hbad. unfold GeoDB_GetRegex.
        rewrite (GetRegex_loop_collect _ _ _ Hre).
        eapply collect_decode_error; [|exact Ht|exact Hm|exact Hbad].
        by apply elem_of_Iterator_Rewind. }
    intros Hdec. unfold GeoDB_GetRegex.
    rewrite (GetRegex_loop_collect _ _ _ Hre).
    destruct (collect_spec (Regexp_MatchString re)
                (Iterator_Rewind now (NewTransaction db false))
                (NoDup_Iterator_Rewind _ _)) with (acc := (∅ : gmap string api_Object))
      as (m & Hm & Hspec).
    { intros k v Hin. apply Hdec. by apply elem_of_Iterator_Rewind. }
    exists m. split; [exact Hm|]. intros k obj. rewrite Hspec. split.
    + intros [(v & Hin & Hp & Hho)|[_ Hacc]]; [|by rewrite lookup_empty in Hacc].
      split; [done|]. exists v. split; [by apply elem_of_Iterator_Rewind|done].
    + intros (Hp & v & Hv & Hho). left. exists v.
      split; [by apply elem_of_Iterator_Rewind|done].
  - unfold GeoDB_GetRegex. rewrite (GetRegex_loop_invalid _ _ Hre). split.
    + intros (k & v & Hv & Ht).
      assert (existsb (fun i => Item_UserMeta i =? Meta_Byte ObjectMeta)
                (Iterator_Rewind now (NewTransaction db false)) = true) as ->; [|done].
      apply existsb_object_item. exists k, v.
      split; [by apply elem_of_Iterator_Rewind|done].
    + intros Hnone.
      destruct (existsb _ _) eqn:Hex; [|done].
      apply existsb_object_item in Hex as (k & v & Hin & Ht).
      apply elem_of_Iterator_Rewind in Hin. by apply Hnone in Hin.
Qed.

End reads.

(** ** [Set]: one goroutine *)

Section writes.
Context {ext : External}.

Lemma Set_stamp_Point c key val : Point (Set_stamp c key val) = Point val.
Proof. unfold Set_stamp. simpl. by destruct (UpdatedUnix val =? 0). Qed.

Lemma Set_stamp_Radius c key val : Radius (Set_stamp c key val) = Radius val.
Proof. unfold Set_stamp. simpl. by destruct (UpdatedUnix val =? 0). Qed.

Lemma Set_stamp_ExpiresUnix c key val :
  ExpiresUnix (Set_stamp c key val) = ExpiresUnix val.
Proof. unfold Set_stamp. simpl. by destruct (UpdatedUnix val =? 0). Qed.

(** The stamped object, field by field. *)
Lemma Set_stamp_fields c key val :
  Set_stamp c key val =
  {| Key := key; Point := Point val; Radius := Radius val;
     UpdatedUnix := if UpdatedUnix val =? 0 then now c else UpdatedUnix val;
     ExpiresUnix := ExpiresUnix val; Payload := Payload val |}.
Proof. unfold Set_stamp. simpl. by destruct (UpdatedUnix val =? 0). Qed.

(** Staging succeeds exactly when the engine accepts the entry, and then the
    transaction holds one pending write. *)
Lemma Set_staged_Ok c key val db txn :
  Set_staged c key val db = Ok txn <->
  SetEntry_fault c = None /\
  txn = {| update := true; snapshot := db;
           pendingWrites := {[ key := Some (Set_written (Set_stamp c key val)) ]} |}.
Proof.
  unfold Set_staged, Txn_SetEntry, Set_written. simpl.
  destruct (SetEntry_fault c); split.
  - done.
  - by intros [? _].
  - intros [= <-]. split; [done|]. by rewrite insert_empty.
  - intros [_ ->]. by rewrite insert_empty.
Qed.

(** The view of the staged transaction: the new entry if it has not expired
    on arrival, and the unexpired rest of the store. *)
Lemma lookup_staged_view c key val db txn k v :
  Set_staged c key val db = Ok txn ->
  Txn_view (now c) txn !! k = Some v <->
  isExpired (now c) v = false /\
  (if decide (k = key) then v = Set_written (Set_stamp c key val)
   else db !! k = Some v).
Proof.
  intros [_ ->]%Set_staged_Ok. rewrite lookup_Txn_view, lookup_overlay. simpl.
  case_decide as Hk.
  - subst k. rewrite lookup_singleton_eq. split; intros [H1 H2]; split; congruence.
  - rewrite lookup_singleton_ne by done. tauto.
Qed.

Lemma overlay_singleton key (w : ValueStruct) (db : gmap string ValueStruct) :
  overlay {[ key := Some w ]} db = <[key := w]> db.
Proof.
  apply map_eq. intros k. rewrite lookup_overlay.
  destruct (decide (k = key)) as [->|Hne].
  - by rewrite lookup_singleton_eq, lookup_insert_eq.
  - by rewrite lookup_singleton_ne, lookup_insert_ne.
Qed.

(** The events of the proximity loop, one by one. *)
Lemma elem_of_Set_scan val point1 (l : list Item) (event : api_Event) :
  event ∈ Set_scan val point1 l <->
  exists k v obj p,
    (k, v) ∈ l /\ holds_object v obj /\ Point obj = Some p /\
    Set_within val point1 obj p = true /\
    event = Set_event val point1 obj p.
Proof.
  induction l as [|[k0 v0] rest IH]; simpl.
  - split; [intros H; by apply elem_of_nil in H|].
    intros (k & v & obj & p & H & _). by apply elem_of_nil in H.
  - assert (Hrest : (exists k v obj p,
               (k, v) ∈ rest /\ holds_object v obj /\ Point obj = Some p /\
               Set_within val point1 obj p = true /\
               event = Set_event val point1 obj p) ->
             exists k v obj p,
               (k, v) ∈ (k0, v0) :: rest /\ holds_object v obj /\ Point obj = Some p /\
               Set_within val point1 obj p = true /\
               event = Set_event val point1 obj p).
    { intros (k & v & obj & p & H & Hs). exists k, v, obj, p.
      split; [by apply elem_of_cons; right|done]. }
    unfold Item_UserMeta, Item_ValueCopy. simpl.
    destruct (Z.eqb_spec (UserMeta v0) (Meta_Byte ObjectMeta)) as [Ht|Ht]; simpl.
    + destruct (proto_Unmarshal (Value v0)) as [obj0|] eqn:Hdec.
      * destruct (Point obj0) as [p0|] eqn:Hp0.
        -- destruct (Set_within val point1 obj0 p0) eqn:Hw.
           ++ rewrite elem_of_cons, IH. split.
              ** intros [->|H]; [|by apply Hrest].
                 exists k0, v0, obj0, p0.
                 split; [by apply elem_of_cons; left|]. by repeat split.
              ** intros (k & v & obj & p & Hin & Hho & Hp & Hwi & ->).
                 apply elem_of_cons in Hin as [[= -> ->]|Hin].
                 --- left. destruct Hho as [_ Hho]. congruence.
                 --- right. by exists k, v, obj, p.
           ++ rewrite IH. split; [by apply Hrest|].
              intros (k & v & obj & p & Hin & Hho & Hp & Hwi & ->).
              apply elem_of_cons in Hin as [[= -> ->]|Hin].
              ** destruct Hho as [_ Hho]. congruence.
              ** by exists k, v, obj, p.
        -- rewrite IH. split; [by apply Hrest|].
           intros (k & v & obj & p & Hin & Hho & Hp & Hwi & ->).
           apply elem_of_cons in Hin as [[= -> ->]|Hin].
           ++ destruct Hho as [_ Hho]. congruence.
           ++ by exists k, v, obj, p.
      * rewrite IH. split; [by apply Hrest|].
        intros (k & v & obj & p & Hin & Hho & Hp & Hwi & ->).
        apply elem_of_cons in Hin as [[= -> ->]|Hin].
        -- destruct Hho as [_ Hho]. congruence.
        -- by exists k, v, obj, p.
    + rewrite IH. split; [by apply Hrest|].
      intros (k & v & obj & p & Hin & Hho & Hp & Hwi & ->).
      apply elem_of_cons in Hin as [[= -> ->]|Hin].
      * by destruct Hho.
      * by exists k, v, obj, p.
Qed.

(** What one goroutine does, case by case. *)
Lemma Set_goroutine_cases c key val db :
  match SetEntry_fault c, Point val with
  | Some _, _ => Set_goroutine c key val db = Returned (db, [])
  | None, None => Set_goroutine c key val db = Panicked
  | None, Some p =>
      exists txn,
        Set_staged c key val db = Ok txn /\
        let A := Set_stamp c key val in
        let point1 := geo_NewPointFromLatLng (Lat p) (Lon p) in
        let out := PublishObject A
                     :: (PublishEvent <$> Set_scan A point1 (Iterator_Rewind (now c) txn)) in
        Set_goroutine c key val db =
        Returned (match Commit_fault c with
                  | None => <[key := Set_written A]> db
                  | Some _ => db
                  end, out)
  end.
Proof.
  unfold Set_goroutine.
  destruct (Set_staged c key val db) as [txn|e] eqn:Hst.
  - pose proof Hst as [Hf Htxn]%Set_staged_Ok. rewrite Hf.
    rewrite Set_stamp_Point. destruct (Point val) as [p|]; [|done].
    exists txn. split; [done|]. simpl. unfold Txn_Commit, Txn_Discard.
    destruct (Commit_fault c); [done|].
    rewrite Htxn. simpl. by rewrite overlay_singleton.
  - destruct (SetEntry_fault c) eqn:Hf; [done|].
    assert (exists txn, Set_staged c key val db = Ok txn) as [txn Htxn];
      [|congruence].
    eexists. apply Set_staged_Ok. by split.
Qed.

End writes.

(** ** [Set]: events, the store it leaves, and the panic *)

Section set_claims.
Context {ext : External}.

(** *** The two models of the goroutine agree *)

(** On a hub that takes every publish the loop with its sends publishes the
    events of [Set_scan], all of them. *)
Lemma Set_scan_publish_all val point1 (items : list Item) :
  Set_scan_publish None val point1 items =
  (PublishEvent <$> Set_scan val point1 items, true).
Proof.
  induction items as [|item rest IH]; [done|].
  cbn [Set_scan_publish Set_scan].
  destruct (negb (Item_UserMeta item =? Meta_Byte ObjectMeta)); [exact IH|].
  destruct (proto_Unmarshal (Item_ValueCopy item)) as [obj|]; [|exact IH].
  destruct (Point obj) as [p|]; [|exact IH].
  unfold Set_within, Set_event, Set_distance, geo_NewPointFromLatLng.
  cbn [Publish]. cbv zeta.
  destruct (PrimFloat.leb _ _); [|exact IH].
  rewrite IH. by rewrite fmap_cons.
Qed.

(** For an object that is not nil and a hub that takes every publish,
    [Set_go_func] is [Set_goroutine]. *)
Lemma Set_go_func_all_taken c key val db :
  Set_go_func None c key (Some val) db =
  match Set_goroutine c key val db with
  | Returned (db', out) => (Returns tt, db', out)
  | Panicked => (Panics, db, [PublishObject (Set_stamp c key val)])
  end.
Proof.
  unfold Set_go_func, Set_goroutine. cbn [Publish].
  destruct (Set_staged c key val db) as [txn|e]; [|done].
  cbv zeta. destruct (Point (Set_stamp c key val)) as [p|]; [|done].
  unfold geo_NewPointFromLatLng. rewrite Set_scan_publish_all.
  by destruct (Txn_Commit (Commit_fault c) txn db).
Qed.

(** So is the call: on a request without nil objects and a hub that takes
    every publish, [GeoDB_Set_call] ends as [GeoDB_Set] does. *)
Lemma Set_range_all_taken (cond : string -> Conditions)
    (objects : list (string * api_Object)) (db : gmap string ValueStruct) :
  match Set_goroutines cond objects db with
  | Returned (db', out) =>
      Set_range (fun _ => None) cond ((fun kv => (kv.1, Some kv.2)) <$> objects) db
      = (Returns tt, db', out)
  | Panicked =>
      (Set_range (fun _ => None) cond ((fun kv => (kv.1, Some kv.2)) <$> objects) db).1.1
      = Panics
  end.
Proof.
  revert db. induction objects as [|[k0 v0] rest IH]; intros db; [done|].
  rewrite fmap_cons. cbn [Set_range Set_goroutines fst snd].
  rewrite Set_go_func_all_taken.
  destruct (Set_goroutine (cond k0) k0 v0 db) as [[db1 out1]|]; [|done].
  specialize (IH db1).
  destruct (Set_goroutines cond rest db1) as [[db2 out2]|].
  - by rewrite IH.
  - destruct (Set_range _ _ _ db1) as [[end2 db2] out2]. simpl in IH. by subst end2.
Qed.

Lemma GeoDB_Set_call_all_taken (cond : string -> Conditions)
    (objects : list (string * api_Object)) (db : gmap string ValueStruct) :
  match GeoDB_Set cond objects db with
  | Returned (r, db', out) =>
      GeoDB_Set_call (fun _ => None) cond ((fun kv => (kv.1, Some kv.2)) <$> objects) db
      = (Returns r, db', out)
  | Panicked =>
      (GeoDB_Set_call (fun _ => None) cond
         ((fun kv => (kv.1, Some kv.2)) <$> objects) db).1.1 = Panics
  end.
Proof.
  pose proof (Set_range_all_taken cond objects db) as H.
  unfold GeoDB_Set, GeoDB_Set_call.
  destruct (Set_goroutines cond objects db) as [[db' out]|].
  - by rewrite H.
  - destruct (Set_range _ _ _ db) as [[e d] o]. simpl in H. by subst e.
Qed.

(** C5 (as amended).  While [Set] writes [A] (the request's object as
    stamped) on a hub that takes every publish, take any entry [B] the staged
    transaction shows that carries the object tag and decodes.  If [B] has a
    point, the event with trigger [A], matched object [B] and the distance
    go.geo computes between the two points is published exactly when that
    distance is at most [float64(A.Radius + B.Radius)], the sum being the
    [int64] sum, and it is the only event published for [B]; if [B] has no
    point, no event is published for it. *)
Theorem Set_event_iff_within_radii (c : Conditions) (key : string)
    (val : api_Object) (db : gmap string ValueStruct) (txn : Txn)
    (pA : api_Point) (k : string) (v : ValueStruct) (B : api_Object) :
  Set_staged c key val db = Ok txn ->
  Point val = Some pA ->
  Txn_view (now c) txn !! k = Some v ->
  holds_object v B ->
  let A := Set_stamp c key val in
  exists db' out,
    Set_go_func None c key (Some val) db = (Returns tt, db', out) /\
    match Point B with
    | Some pB =>
        let dist := GeoDistanceFrom {| geo_Lat := Lat pA; geo_Lng := Lon pA |}
                                    {| geo_Lat := Lat pB; geo_Lng := Lon pB |} true in
        let event := {| TriggerObject := A; Object := B; Distance := dist;
                        TimestampUnix := UpdatedUnix A |} in
        (PublishEvent event ∈ out <->
         PrimFloat.leb dist (float64 (int64_add (Radius A) (Radius B))) = true) /\
        (forall e, PublishEvent e ∈ out -> Object e = B -> e = event)
    | None => forall e, PublishEvent e ∈ out -> Object e <> B
    end.
Proof.
  intros Hst HpA Hv HB A.
  pose proof (Set_goroutine_cases c key val db) as Hg.
  pose proof Hst as [Hf _]%Set_staged_Ok. rewrite Hf, HpA in Hg.
  destruct Hg as (txn' & Hst' & Hg). rewrite Hst in Hst'. injection Hst' as <-.
  simpl in Hg. rewrite Set_go_func_all_taken, Hg. eexists _, _. split; [reflexivity|].
  fold A. set (point1 := geo_NewPointFromLatLng (Lat pA) (Lon pA)).
  assert (Hev : forall event,
    PublishEvent event ∈
      PublishObject A :: (PublishEvent <$> Set_scan A point1 (Iterator_Rewind (now c) txn)) <->
    event ∈ Set_scan A point1 (Iterator_Rewind (now c) txn)).
  { intros event. rewrite elem_of_cons, list_elem_of_fmap. split.
    - intros [?|(e & [= ->] & He)]; done.
    - intros He. right. by exists event. }
  destruct (Point B) as [pB|] eqn:HpB.
  - cbv zeta.
    change {| TriggerObject := A; Object := B;
              Distance := GeoDistanceFrom {| geo_Lat := Lat pA; geo_Lng := Lon pA |}
                            {| geo_Lat := Lat pB; geo_Lng := Lon pB |} true;
              TimestampUnix := UpdatedUnix A |}
      with (Set_event A point1 B pB).
    change (PrimFloat.leb
              (GeoDistanceFrom {| geo_Lat := Lat pA; geo_Lng := Lon pA |}
                 {| geo_Lat := Lat pB; geo_Lng := Lon pB |} true)
              (float64 (int64_add (Radius A) (Radius B))))
      with (Set_within A point1 B pB).
    split.
    + rewrite Hev, elem_of_Set_scan. split.
      * intros (k' & v' & obj & p & _ & _ & Hp & Hw & Heq).
        assert (obj = B) as -> by (by injection Heq).
        assert (p = pB) as -> by congruence. exact Hw.
      * intros Hw. exists k, v, B, pB.
        split; [by apply elem_of_Iterator_Rewind|].
        split; [exact HB|]. split; [exact HpB|]. split; [exact Hw|reflexivity].
    + intros event Hin HB'. apply Hev, elem_of_Set_scan in Hin
        as (k' & v' & obj & p & _ & _ & Hp & _ & ->).
      simpl in HB'. subst obj. congruence.
  - intros event Hin HB'. apply Hev, elem_of_Set_scan in Hin
      as (k' & v' & obj & p & _ & _ & Hp & _ & ->).
    simpl in HB'. subst obj. congruence.
Qed.

(** C6 (as amended).  Writing an object [A] that is not nil and has a point,
    whose entry has not expired on arrival, whose radius [r] satisfies
    [0 <= r] and [r + r <= max_int64], which is staged and whose publishes
    the hub takes, publishes the self-event pairing [A] with [A] at distance
    0, whatever the store held before, provided the serialised object decodes
    to itself and go.geo gives 0 as the distance of the point to itself. *)
Theorem Set_emits_self_event (c : Conditions) (key : string) (val : api_Object)
    (db : gmap string ValueStruct) (p : api_Point) :
  Point val = Some p ->
  SetEntry_fault c = None ->
  uint64 (ExpiresUnix val) = 0 \/ uint64 (now c) < uint64 (ExpiresUnix val) ->
  0 <= Radius val ->
  Radius val + Radius val <= max_int64 ->
  let A := Set_stamp c key val in
  proto_Unmarshal (proto_Marshal A).1 = Some A ->
  GeoDistanceFrom {| geo_Lat := Lat p; geo_Lng := Lon p |}
                  {| geo_Lat := Lat p; geo_Lng := Lon p |} true = 0%float ->
  exists db' out,
    Set_go_func None c key (Some val) db = (Returns tt, db', out) /\
    PublishEvent {| TriggerObject := A; Object := A; Distance := 0%float;
                    TimestampUnix := UpdatedUnix A |} ∈ out.
Proof.
  intros Hp Hf Hlive Hr0 Hr1 A Hcodec Hself.
  assert (Set_distance (geo_NewPointFromLatLng (Lat p) (Lon p)) p = 0%float) as Hself'
    by exact Hself.
  pose proof (Set_goroutine_cases c key val db) as Hg.
  rewrite Hf, Hp in Hg. destruct Hg as (txn & Hst & Hg).
  simpl in Hg. rewrite Set_go_func_all_taken, Hg. eexists _, _. split; [reflexivity|].
  apply elem_of_cons. right. apply list_elem_of_fmap. eexists. split; [reflexivity|].
  apply elem_of_Set_scan. exists key, (Set_written A), A, p.
  split; [|split; [|split; [|split]]].
  - apply elem_of_Iterator_Rewind, (lookup_staged_view _ _ _ _ _ _ _ Hst).
    rewrite decide_True by done. split; [|done].
    unfold isExpired, Set_written. simpl. unfold A.
    rewrite Set_stamp_ExpiresUnix.
    destruct Hlive as [->|Hlt]; [done|].
    apply andb_false_iff. right. by apply Z.leb_gt.
  - by split.
  - unfold A. by rewrite Set_stamp_Point.
  - unfold Set_within. rewrite Hself'. unfold A. rewrite Set_stamp_Radius.
    rewrite int64_add_small by (unfold max_int64 in *; lia).
    apply float64_nonneg. lia.
  - unfold Set_event. by rewrite Hself'.
Qed.

(** One goroutine leaves the store as it was except, when nothing failed,
    under its own key. *)
Lemma Set_goroutine_store c key val db db' out :
  Set_goroutine c key val db = Returned (db', out) ->
  db' = match SetEntry_fault c, Commit_fault c with
        | None, None => <[key := Set_written (Set_stamp c key val)]> db
        | _, _ => db
        end.
Proof.
  pose proof (Set_goroutine_cases c key val db) as Hg.
  destruct (SetEntry_fault c); [by intros [= <- _]%(eq_trans (eq_sym Hg))|].
  destruct (Point val); [|by rewrite Hg].
  destruct Hg as (txn & _ & Hg). simpl in Hg. rewrite Hg.
  intros [= <- _]. by destruct (Commit_fault c).
Qed.

Lemma Set_goroutine_Panicked c key val db :
  Set_goroutine c key val db = Panicked <->
  SetEntry_fault c = None /\ Point val = None.
Proof.
  pose proof (Set_goroutine_cases c key val db) as Hg.
  destruct (SetEntry_fault c); [rewrite Hg; split; [done|by intros [? _]]|].
  destruct (Point val).
  - destruct Hg as (txn & _ & Hg). simpl in Hg. rewrite Hg.
    split; [done|by intros [_ ?]].
  - by rewrite Hg.
Qed.

(** The goroutine panics at line 53 on a nil object, and at line 69 on a
    nil point once the entry is staged and the object published; nowhere
    else. *)
Lemma Set_go_func_Panics taken c key v db :
  (Set_go_func taken c key v db).1.1 = Panics <->
  v = None \/
  exists o, v = Some o /\ SetEntry_fault c = None /\ taken <> Some O /\ Point o = None.
Proof.
  unfold Set_go_func. destruct v as [o|]; [|split; [by left|done]].
  destruct (Set_staged c key o db) as [txn|e] eqn:Hst.
  - apply Set_staged_Ok in Hst as [Hf _]. cbv zeta. rewrite Set_stamp_Point.
    assert (forall t,
      (match Point o with
       | Some p =>
           match Set_scan_publish t (Set_stamp c key o)
                   {| geo_Lat := Lat p; geo_Lng := Lon p |}
                   (Iterator_Rewind (now c) txn) with
           | (events, false) => (Blocks, db, PublishObject (Set_stamp c key o) :: events)
           | (events, true) =>
               match Txn_Commit (Commit_fault c) txn db with
               | Err _ => (Returns tt, Txn_Discard txn db,
                           PublishObject (Set_stamp c key o) :: events)
               | Ok db' => (Returns tt, db', PublishObject (Set_stamp c key o) :: events)
               end
           end
       | None => (Panics, db, [PublishObject (Set_stamp c key o)])
       end).1.1 = Panics <-> Point o = None) as Hlate.
    { intros t. destruct (Point o) as [p|]; [|done].
      destruct (Set_scan_publish _ _ _ _) as [events []];
        [destruct (Txn_Commit _ _ _)|]; done. }
    destruct taken as [[|n]|]; cbn [Publish].
    + split; [done|]. intros [?|(o' & _ & _ & Hn & _)]; done.
    + rewrite Hlate. split.
      * intros Hp. right. by exists o.
      * intros [?|(o' & [= <-] & _ & _ & Hp)]; done.
    + rewrite Hlate. split.
      * intros Hp. right. by exists o.
      * intros [?|(o' & [= <-] & _ & _ & Hp)]; done.
  - split; [done|]. intros [?|(o' & [= <-] & Hf & _)]; [done|].
    assert (exists txn, Set_staged c key o db = Ok txn) as [txn Htxn];
      [|congruence].
    eexists. apply Set_staged_Ok. by split.
Qed.

(** C10 (as amended).  [Set] panics exactly when the request holds a nil
    object (line 53 writes [val.Key]), or an object without a point whose
    entry the engine has accepted and whose [PublishObject] the hub has
    taken: line 69 reads [val.Point.Lat] without a nil test.  In particular
    the request that holds one such object panics on every store, while an
    object without a point that the engine refuses does not make [Set]
    panic. *)
Theorem Set_panics_iff_nil_dereference (taken : string -> option nat)
    (cond : string -> Conditions) (objects : list (string * option api_Object))
    (db : gmap string ValueStruct) :
  ((GeoDB_Set_call taken cond objects db).1.1 = Panics <->
   exists k v, (k, v) ∈ objects /\
     (v = None \/
      exists o, v = Some o /\ SetEntry_fault (cond k) = None /\
                taken k <> Some O /\ Point o = None)) /\
  (forall k o, objects = [(k, Some o)] -> Point o = None ->
     SetEntry_fault (cond k) = None -> taken k <> Some O ->
     (GeoDB_Set_call taken cond objects db).1.1 = Panics).
Proof.
  assert (Hiff : forall objects db,
    (Set_range taken cond objects db).1.1 = Panics <->
    exists k v, (k, v) ∈ objects /\
      (v = None \/
       exists o, v = Some o /\ SetEntry_fault (cond k) = None /\
                 taken k <> Some O /\ Point o = None)).
  { clear. induction objects as [|[k0 v0] rest IH]; intros db.
    - split; [done|]. intros (k & v & H & _). by apply elem_of_nil in H.
    - cbn [Set_range].
      pose proof (Set_go_func_Panics (taken k0) (cond k0) k0 v0 db) as Hhead.
      destruct (Set_go_func (taken k0) (cond k0) k0 v0 db) as [[end1 db1] out1].
      simpl in Hhead.
      assert (forall P : Prop, (P <-> exists k v, (k, v) ∈ rest /\
                 (v = None \/
                  exists o, v = Some o /\ SetEntry_fault (cond k) = None /\
                            taken k <> Some O /\ Point o = None)) ->
              end1 <> Panics ->
              (P <-> exists k v, (k, v) ∈ (k0, v0) :: rest /\
                 (v = None \/
                  exists o, v = Some o /\ SetEntry_fault (cond k) = None /\
                            taken k <> Some O /\ Point o = None))) as Htail.
      { intros P HP Hne. rewrite HP. split.
        - intros (k & v & Hin & Hs). exists k, v.
          split; [by apply elem_of_cons; right|done].
        - intros (k & v & Hin & Hs).
          apply elem_of_cons in Hin as [[= -> ->]|Hin]; [|by exists k, v].
          destruct Hne. by apply Hhead. }
      specialize (IH db1).
      destruct (Set_range taken cond rest db1) as [[end2 db2] out2].
      simpl in IH.
      destruct end1 as [[]| |].
      + apply Htail; [|done]. rewrite <- IH. by destruct end2.
      + simpl. split; [|done]. intros _. exists k0, v0.
        split; [by apply elem_of_cons; left|]. by apply Hhead.
      + apply Htail; [|done]. rewrite <- IH. by destruct end2. }
  assert (Hset : forall objects db,
    (GeoDB_Set_call taken cond objects db).1.1 = Panics <->
    (Set_range taken cond objects db).1.1 = Panics).
  { clear. intros objects db. unfold GeoDB_Set_call.
    by destruct (Set_range taken cond objects db) as [[[[]| |] ?] ?]. }
  split.
  - by rewrite Hset, Hiff.
  - intros k o -> Hp Hf Ht. apply Hset, Hiff. exists k, (Some o).
    split; [by apply list_elem_of_singleton|]. right. by exists o.
Qed.

(** The store a request leaves, key by key. *)
Lemma Set_goroutines_store (cond : string -> Conditions)
    (objects : list (string * api_Object)) (db : gmap string ValueStruct) :
  NoDup objects.*1 ->
  (forall k v, (k, v) ∈ objects -> SetEntry_fault (cond k) = None ->
               is_Some (Point v)) ->
  exists db' out,
    Set_goroutines cond objects db = Returned (db', out) /\
    (forall k v, (k, v) ∈ objects ->
       db' !! k =
       match SetEntry_fault (cond k), Commit_fault (cond k) with
       | None, None => Some (Set_written (Set_stamp (cond k) k v))
       | _, _ => db !! k
       end) /\
    (forall k, k ∉ objects.*1 -> db' !! k = db !! k).
Proof.
  intros Hnd Hpts.
  revert db. induction objects as [|[k0 v0] rest IH]; intros db; simpl.
  - exists db, []. split; [done|]. split; [|done].
    intros k v H. by apply elem_of_nil in H.
  - rewrite fmap_cons in Hnd. apply NoDup_cons in Hnd as [Hk0 Hnd].
    destruct (Set_goroutine (cond k0) k0 v0 db) as [[db1 out1]|] eqn:Hg.
    2:{ apply Set_goroutine_Panicked in Hg as [Hf Hp].
        destruct (Hpts k0 v0) as [p Hp']; [by apply elem_of_cons; left|done|].
        congruence. }
    apply Set_goroutine_store in Hg.
    destruct (IH Hnd) with (db := db1) as (db2 & out2 & -> & IH1 & IH2).
    { intros k v Hin. apply Hpts. by apply elem_of_cons; right. }
    exists db2, (out1 ++ out2). split; [done|]. split.
    + intros k v Hin. apply elem_of_cons in Hin as [[= -> ->]|Hin].
      * rewrite IH2 by done. rewrite Hg.
        destruct (SetEntry_fault (cond k0)), (Commit_fault (cond k0)); try done.
        by rewrite lookup_insert_eq.
      * rewrite (IH1 k v Hin).
        assert (k <> k0) as Hne.
        { intros ->. apply Hk0. apply list_elem_of_fmap. by exists (k0, v). }
        assert (db1 !! k = db !! k) as ->; [|done].
        rewrite Hg. destruct (SetEntry_fault (cond k0)), (Commit_fault (cond k0));
          try done. by rewrite lookup_insert_ne.
    + intros k Hk. apply not_elem_of_cons in Hk as [Hne Hk].
      rewrite IH2 by done. rewrite Hg.
      destruct (SetEntry_fault (cond k0)), (Commit_fault (cond k0)); try done.
      by rewrite lookup_insert_ne.
Qed.

(** A goroutine whose object is not nil, and which, if its entry is staged,
    finds a point and a hub that takes its publishes, returns; it changes the
    store when neither [SetEntry] nor [Commit] failed, under its key. *)
Lemma Set_go_func_store taken c key o db :
  (SetEntry_fault c = None -> is_Some (Point o) /\ taken = None) ->
  exists out,
    Set_go_func taken c key (Some o) db =
    (Returns tt,
     match SetEntry_fault c, Commit_fault c with
     | None, None => <[key := Set_written (Set_stamp c key o)]> db
     | _, _ => db
     end, out).
Proof.
  intros Hok. pose proof (Set_goroutine_cases c key o db) as Hg.
  destruct (SetEntry_fault c) as [e|] eqn:Hf.
  - exists []. unfold Set_go_func, Set_staged, Txn_SetEntry. by rewrite Hf.
  - destruct Hok as [[p Hp] ->]; [done|]. rewrite Hp in Hg.
    destruct Hg as (txn & _ & Hg). simpl in Hg.
    rewrite Set_go_func_all_taken, Hg. eexists.
    by destruct (Commit_fault c).
Qed.

Lemma Set_range_store (taken : string -> option nat) (cond : string -> Conditions)
    (objects : list (string * option api_Object)) (db : gmap string ValueStruct) :
  NoDup objects.*1 ->
  (forall k v, (k, v) ∈ objects ->
     exists o, v = Some o /\
       (SetEntry_fault (cond k) = None -> is_Some (Point o) /\ taken k = None)) ->
  exists db' out,
    Set_range taken cond objects db = (Returns tt, db', out) /\
    (forall k o, (k, Some o) ∈ objects ->
       db' !! k =
       match SetEntry_fault (cond k), Commit_fault (cond k) with
       | None, None => Some (Set_written (Set_stamp (cond k) k o))
       | _, _ => db !! k
       end) /\
    (forall k, k ∉ objects.*1 -> db' !! k = db !! k).
Proof.
  intros Hnd Hall.
  revert db. induction objects as [|[k0 v0] rest IH]; intros db.
  - exists db, []. split; [done|]. split; [|done].
    intros k o H. by apply elem_of_nil in H.
  - rewrite fmap_cons in Hnd. apply NoDup_cons in Hnd as [Hk0 Hnd].
    destruct (Hall k0 v0) as (o0 & -> & Hok0); [by apply elem_of_cons; left|].
    destruct (Set_go_func_store (taken k0) (cond k0) k0 o0 db Hok0) as (out1 & Hg).
    destruct (IH Hnd) with
      (db := match SetEntry_fault (cond k0), Commit_fault (cond k0) with
             | None, None => <[k0 := Set_written (Set_stamp (cond k0) k0 o0)]> db
             | _, _ => db
             end) as (db2 & out2 & Hrest & IH1 & IH2).
    { intros k v Hin. apply Hall. by apply elem_of_cons; right. }
    exists db2, (out1 ++ out2). cbn [Set_range]. rewrite Hg, Hrest.
    split; [done|]. split.
    + intros k o Hin. apply elem_of_cons in Hin as [[= -> ->]|Hin].
      * rewrite IH2 by done.
        destruct (SetEntry_fault (cond k0)), (Commit_fault (cond k0)); try done.
        by rewrite lookup_insert_eq.
      * rewrite (IH1 k o Hin).
        assert (k <> k0) as Hne.
        { intros ->. apply Hk0. apply list_elem_of_fmap. by exists (k0, Some o). }
        destruct (SetEntry_fault (cond k)), (Commit_fault (cond k)); try done;
          destruct (SetEntry_fault (cond k0)), (Commit_fault (cond k0)); try done;
          by rewrite lookup_insert_ne.
    + intros k Hk. apply not_elem_of_cons in Hk as [Hne Hk].
      rewrite IH2 by done.
      destruct (SetEntry_fault (cond k0)), (Commit_fault (cond k0)); try done.
      by rewrite lookup_insert_ne.
Qed.

(** C8 (as amended).  For a request whose objects are not nil and in which
    every object that gets staged has a point and has its publishes taken by
    the hub, [Set] returns the empty response with a nil error.  A key whose
    [SetEntry] or [Commit] fails keeps what the store held; every other key
    of the request holds the written entry, whose value is whatever bytes
    [proto.Marshal] returned (its error is dropped); keys outside the request
    are untouched. *)
Theorem Set_is_fire_and_forget (taken : string -> option nat)
    (cond : string -> Conditions) (objects : list (string * option api_Object))
    (db : gmap string ValueStruct) :
  NoDup objects.*1 ->
  (forall k v, (k, v) ∈ objects ->
     exists o, v = Some o /\
       (SetEntry_fault (cond k) = None -> is_Some (Point o) /\ taken k = None)) ->
  exists db' out,
    GeoDB_Set_call taken cond objects db = (Returns (Ok SetResponse), db', out) /\
    (forall k o, (k, Some o) ∈ objects ->
       db' !! k =
       match SetEntry_fault (cond k), Commit_fault (cond k) with
       | None, None =>
           Some {| UserMeta := Meta_Byte ObjectMeta;
                   ExpiresAt := uint64 (ExpiresUnix o);
                   Value := (proto_Marshal (Set_stamp (cond k) k o)).1 |}
       | _, _ => db !! k
       end) /\
    (forall k, k ∉ objects.*1 -> db' !! k = db !! k).
Proof.
  intros Hnd Hall.
  destruct (Set_range_store taken cond objects db Hnd Hall)
    as (db' & out & Hrun & Hin & Hout).
  exists db', out. split; [unfold GeoDB_Set_call; by rewrite Hrun|].
  split; [|exact Hout].
  intros k o Hko. rewrite (Hin k o Hko). unfold Set_written.
  by rewrite Set_stamp_ExpiresUnix.
Qed.

(** C9 (as amended).  Take an object [v] that is not nil and has a point,
    written under [k] by a [Set] whose [SetEntry] and [Commit] succeed and
    whose publishes the hub takes, and a later [Get] of [k] at a time [later]
    at which the entry has not expired (its expiry is 0 or after [later]).
    If the serialised object decodes to itself, [Get] returns [v] with [Key]
    set to [k] and [UpdatedUnix] set to the time of the write when it was 0,
    and every other field as written. *)
Theorem Set_then_Get (taken : string -> option nat) (cond : string -> Conditions)
    (k : string) (v : api_Object) (db : gmap string ValueStruct) (later : Z)
    (p : api_Point) :
  Point v = Some p ->
  SetEntry_fault (cond k) = None ->
  Commit_fault (cond k) = None ->
  taken k = None ->
  uint64 (ExpiresUnix v) = 0 \/ uint64 later < uint64 (ExpiresUnix v) ->
  let A := {| Key := k; Point := Point v; Radius := Radius v;
              UpdatedUnix := if UpdatedUnix v =? 0 then now (cond k) else UpdatedUnix v;
              ExpiresUnix := ExpiresUnix v; Payload := Payload v |} in
  proto_Unmarshal (proto_Marshal A).1 = Some A ->
  exists db' out,
    GeoDB_Set_call taken cond [(k, Some v)] db = (Returns (Ok SetResponse), db', out) /\
    GeoDB_Get later db' [k] = Ok {[ k := A ]}.
Proof.
  intros Hp Hf Hc Ht Hlive A Hcodec.
  destruct (Set_range_store taken cond [(k, Some v)] db) as (db' & out & Hrun & Hk & _).
  { simpl. apply NoDup_singleton. }
  { intros k' v' [= -> ->]%list_elem_of_singleton. exists v. split; [done|].
    intros _. by rewrite Hp. }
  exists db', out. split; [unfold GeoDB_Set_call; by rewrite Hrun|].
  specialize (Hk k v ltac:(by apply list_elem_of_singleton)).
  rewrite Hf, Hc, Set_stamp_fields in Hk. fold A in Hk.
  unfold GeoDB_Get. simpl. unfold Txn_Get.
  assert (Txn_view later (NewTransaction db' false) !! k = Some (Set_written A)) as ->.
  { apply lookup_Txn_view_read. split; [done|].
    unfold isExpired, Set_written. simpl.
    destruct Hlive as [->|Hlt]; [done|].
    apply andb_false_iff. right. by apply Z.leb_gt. }
  unfold Item_UserMeta, Item_ValueCopy. simpl.
  rewrite Hcodec. by rewrite insert_empty.
Qed.

End set_claims.

(** ** The hub, the streaming loops and [Delete] *)

Section hub_claims.
Context {ext : External}.

(** Neither streaming call ever touches [eventClients]: the only writer of
    that map is [AddEventStreamClient], which [services] never calls. *)
Lemma RemoveObjectStreamClient_eventClients id h :
  eventClients (RemoveObjectStreamClient id h) = eventClients h.
Proof. unfold RemoveObjectStreamClient. by destruct (objectClients h !! id). Qed.

Lemma GetClientEventStream_no_event_clients id h :
  eventClients h = ∅ -> GetClientEventStream id h = None.
Proof.
  intros He. unfold GetClientEventStream. rewrite He, lookup_empty.
  by destruct (objectClients h !! id).
Qed.

Lemma StreamEvents_loop_no_event_clients Regex id h cases :
  eventClients h = ∅ ->
  exists h', StreamEvents_loop Regex id h cases = (h', [], None) /\ eventClients h' = ∅.
Proof.
  revert h. induction cases as [|[event|] rest IH]; intros h He; simpl.
  - by exists h.
  - rewrite GetClientEventStream_no_event_clients by done. by exists h.
  - destruct (IH (RemoveObjectStreamClient id h)) as (h' & -> & He').
    { by rewrite RemoveObjectStreamClient_eventClients. }
    by exists h'.
Qed.

(** C1.  On the code the claim fails.  A client registered with
    [AddEventStreamClient] alone is in [eventClients], and
    [GetClientEventStream] reports it as not found, because it looks the id up
    in [objectClients].  [StreamEvents] itself registers with
    [AddObjectStreamClient]: after its registration a round of the event
    dispatcher sends to nobody, the channel it reads from is nil, and however
    the [select] goes it forwards no event. *)
Theorem event_stream_client_gets_no_events (uuid : string) (ch : chan)
    (ClientId Regex : string) (event : api_Event)
    (cases : list (select_case api_Event)) :
  (let '(id, h) := AddEventStreamClient uuid ch ClientId NewHub in
   eventClients h !! id = Some ch /\ GetClientEventStream id h = None) /\
  (let '(id, h) := AddObjectStreamClient uuid ch ClientId NewHub in
   StartEventStream_round h event = [] /\ GetClientEventStream id h = None) /\
  (GeoDB_StreamEvents uuid ch ClientId Regex NewHub cases).1.2 = [].
Proof.
  split; [|split].
  - simpl. split; [by rewrite lookup_insert_eq|].
    unfold GetClientEventStream. simpl. by rewrite lookup_empty.
  - simpl. split; [done|].
    unfold GetClientEventStream. simpl. by rewrite lookup_insert_eq, lookup_empty.
  - unfold GeoDB_StreamEvents. simpl.
    match goal with |- context [StreamEvents_loop ?r ?i ?h ?c] =>
      destruct (StreamEvents_loop_no_event_clients r i h c) as (h' & -> & _)
    end; done.
Qed.

(** The object accessor, by contrast, finds what [AddObjectStreamClient]
    registered. *)
Lemma GetClientObjectStream_after_Add uuid ch ClientId h :
  let '(id, h') := AddObjectStreamClient uuid ch ClientId h in
  GetClientObjectStream id h' = Some ch.
Proof.
  simpl. unfold GetClientObjectStream. simpl. by rewrite lookup_insert_eq.
Qed.

Lemma RemoveObjectStreamClient_idem id h :
  RemoveObjectStreamClient id (RemoveObjectStreamClient id h) =
  RemoveObjectStreamClient id h.
Proof.
  unfold RemoveObjectStreamClient.
  destruct (objectClients h !! id) eqn:Hid; simpl.
  - by rewrite lookup_delete_eq.
  - by rewrite Hid.
Qed.

Lemma Stream_loop_cancelled Regex id h n :
  Stream_loop Regex id h (repeat ContextDone n) =
  (match n with O => h | S _ => RemoveObjectStreamClient id h end, [], None).
Proof.
  revert h. induction n as [|n IH]; intros h; [done|].
  simpl. rewrite IH. destruct n; [done|].
  by rewrite RemoveObjectStreamClient_idem.
Qed.

Lemma StreamEvents_loop_cancelled Regex id h n :
  StreamEvents_loop Regex id h (repeat ContextDone n) =
  (match n with O => h | S _ => RemoveObjectStreamClient id h end, [], None).
Proof.
  revert h. induction n as [|n IH]; intros h; [done|].
  simpl. rewrite IH. destruct n; [done|].
  by rewrite RemoveObjectStreamClient_idem.
Qed.

(** The only way out of the loop of [Stream] is the [return err] of a
    pattern that does not compile. *)
Lemma Stream_returns_only_on_bad_pattern Regex id h cases h' out err :
  Stream_loop Regex id h cases = (h', out, Some err) ->
  Regex <> EmptyString /\ regexp_Compile Regex = None /\ err = ErrRegexpSyntax.
Proof.
  revert h h' out. induction cases as [|[msg|] rest IH]; intros h h' out; simpl.
  - done.
  - destruct (GetClientObjectStream id h); [|done].
    destruct (String.eqb_spec Regex EmptyString) as [->|Hne]; simpl.
    + destruct (Stream_loop _ id h rest) as [[h2 out2] r] eqn:Hl.
      intros [= <- <- ->]. by apply IH in Hl as [? _].
    + unfold regexp_MatchString.
      destruct (regexp_Compile Regex) as [re|]; [|by intros [= <- <- <-]].
      destruct (Regexp_MatchString re (Key msg));
        destruct (Stream_loop Regex id h rest) as [[h2 out2] r] eqn:Hl;
        intros [= <- <- ->]; by apply IH in Hl as (? & ? & ?).
  - destruct (Stream_loop Regex id _ rest) as [[h2 out2] r] eqn:Hl.
    intros [= <- <- ->]. by apply IH in Hl.
Qed.

Lemma StreamEvents_returns_only_on_bad_pattern Regex id h cases h' out err :
  StreamEvents_loop Regex id h cases = (h', out, Some err) ->
  Regex <> EmptyString /\ regexp_Compile Regex = None /\ err = ErrRegexpSyntax.
Proof.
  revert h h' out. induction cases as [|[event|] rest IH]; intros h h' out; simpl.
  - done.
  - destruct (GetClientEventStream id h); [|done].
    destruct (String.eqb_spec Regex EmptyString) as [->|Hne]; simpl.
    + destruct (StreamEvents_loop _ id h rest) as [[h2 out2] r] eqn:Hl.
      intros [= <- <- ->]. by apply IH in Hl as [? _].
    + unfold regexp_MatchString.
      destruct (regexp_Compile Regex) as [re|]; [|by intros [= <- <- <-]].
      destruct (Regexp_MatchString re (Key (TriggerObject event)));
        destruct (StreamEvents_loop Regex id h rest) as [[h2 out2] r] eqn:Hl;
        intros [= <- <- ->]; by apply IH in Hl as (? & ? & ?).
  - destruct (StreamEvents_loop Regex id _ rest) as [[h2 out2] r] eqn:Hl.
    intros [= <- <- ->]. by apply IH in Hl.
Qed.

(** C3.  On the code the claim fails.  When the context is done an iteration
    of either loop removes the client from [objectClients] and goes round
    again: the [break] leaves the [select], not the [for].  So however often
    the cancelled context is selected, the call has not returned. *)
Theorem Stream_does_not_return_on_cancellation (uuid : string) (ch : chan)
    (ClientId Regex : string) (h : Hub) (n : nat) :
  (forall id,
     Stream_iteration Regex id h ContextDone =
       Some (RemoveObjectStreamClient id h, [], Continue) /\
     StreamEvents_iteration Regex id h ContextDone =
       Some (RemoveObjectStreamClient id h, [], Continue)) /\
  (GeoDB_Stream uuid ch ClientId Regex h (repeat ContextDone n)).2 = None /\
  (GeoDB_StreamEvents uuid ch ClientId Regex h (repeat ContextDone n)).2 = None.
Proof.
  split; [done|].
  unfold GeoDB_Stream, GeoDB_StreamEvents. simpl.
  by rewrite Stream_loop_cancelled, StreamEvents_loop_cancelled.
Qed.

(** C2.  On the code the claim fails.  [Delete] marks the keys in its
    transaction and returns without [Commit]: the store it leaves is the store
    it found, and a [Get] after it answers as a [Get] before it. *)
Theorem Delete_leaves_the_store (fault : string -> option error)
    (db : gmap string ValueStruct) (keys : list string) :
  (GeoDB_Delete fault db keys).2 = db /\
  (forall now ks,
     GeoDB_Get now (GeoDB_Delete fault db keys).2 ks = GeoDB_Get now db ks).
Proof.
  assert ((GeoDB_Delete fault db keys).2 = db) as Heq.
  { unfold GeoDB_Delete. by destruct (Delete_loop fault _ keys). }
  split; [exact Heq|]. intros now ks. by rewrite Heq.
Qed.

(** Inside the transaction the keys are gone: the deletes are staged, and
    only the commit is missing. *)
Lemma Delete_loop_stages fault (txn : Txn) keys txn' now k :
  Delete_loop fault txn keys = Ok txn' -> k ∈ keys ->
  Txn_view now txn' !! k = None.
Proof.
  revert txn. induction keys as [|k0 rest IH]; intros txn; simpl.
  - intros _ H. by apply elem_of_nil in H.
  - unfold Txn_Delete. destruct (fault k0); [done|].
    destruct (update txn) eqn:Hu; [|done].
    intros Hl Hin.
    destruct (decide (k ∈ rest)) as [Hr|Hr]; [by eapply IH|].
    apply elem_of_cons in Hin as [->|Hin]; [|done].
    assert (forall ks t t', Delete_loop fault t ks = Ok t' -> k0 ∉ ks ->
              pendingWrites t !! k0 = Some None -> pendingWrites t' !! k0 = Some None)
      as Hkeep.
    { clear. induction ks as [|k1 ks IHk]; intros t t'; simpl.
      - by intros [= <-].
      - unfold Txn_Delete. destruct (fault k1); [done|].
        destruct (update t); [|done]. intros Hl Hn Hp.
        apply not_elem_of_cons in Hn as [Hne Hn].
        eapply IHk; [exact Hl|done|]. simpl. by rewrite lookup_insert_ne. }
    eapply Hkeep in Hl; [|done|by simpl; rewrite lookup_insert_eq].
    apply eq_None_not_Some. intros [v Hv].
    apply lookup_Txn_view in Hv as [Hv _].
    rewrite lookup_overlay, Hl in Hv. done.
Qed.

End hub_claims.

(** ** Further properties of the read calls *)

Section more_reads.
Context {ext : External}.

Lemma Sorted_Keys_loop (l : list Item) :
  StronglySorted Item_le l -> StronglySorted bytes_le (Keys_loop l).
Proof.
  induction 1 as [|[k v] rest Hs IH Hle]; simpl; [constructor|].
  destruct (negb _); [exact IH|].
  constructor; [exact IH|].
  apply Forall_forall. intros k' Hk'. apply elem_of_Keys_loop in Hk' as (v' & Hin & _).
  rewrite Forall_forall in Hle. exact (Hle _ Hin).
Qed.

Lemma NoDup_Keys_loop (l : list Item) : NoDup l.*1 -> NoDup (Keys_loop l).
Proof.
  induction l as [|[k v] rest IH]; simpl; [constructor|].
  intros [Hk Hnd]%NoDup_cons. destruct (negb _); [by apply IH|].
  apply NoDup_cons. split; [|by apply IH].
  intros (v' & Hin & _)%elem_of_Keys_loop. apply Hk.
  apply list_elem_of_fmap. by exists (k, v').
Qed.

(** X1.  [Keys] never fails.  It lists exactly the keys of the visible
    entries that carry the object tag, each key once, in ascending byte
    order. *)
Theorem Keys_lists_object_keys (now : Z) (db : gmap string ValueStruct) :
  exists keys,
    GeoDB_Keys now db = Ok keys /\
    NoDup keys /\
    StronglySorted bytes_le keys /\
    forall k, k ∈ keys <->
      exists v, Txn_view now (NewTransaction db false) !! k = Some v /\
                UserMeta v = Meta_Byte ObjectMeta.
Proof.
  eexists. split; [reflexivity|]. split; [|split].
  - apply NoDup_Keys_loop, NoDup_Iterator_Rewind.
  - apply Sorted_Keys_loop, Sorted_Iterator_Rewind.
  - intros k. rewrite elem_of_Keys_loop. split.
    + intros (v & Hin & Ht). exists v. split; [by apply elem_of_Iterator_Rewind|done].
    + intros (v & Hv & Ht). exists v. split; [by apply elem_of_Iterator_Rewind|done].
Qed.

(** What [Get]'s loop answers when every requested key is visible and every
    requested object decodes. *)
Lemma Get_loop_spec (now : Z) (txn : Txn) (keys : list string) :
  (forall k, k ∈ keys -> exists v,
     Txn_view now txn !! k = Some v /\
     (UserMeta v = Meta_Byte ObjectMeta -> is_Some (proto_Unmarshal (Value v)))) ->
  forall acc, exists m,
    Get_loop now txn keys acc = Ok m /\
    forall k obj,
      m !! k = Some obj <->
      (k ∈ keys /\ exists v, Txn_view now txn !! k = Some v /\ holds_object v obj) \/
      ((k ∉ keys \/
        forall v, Txn_view now txn !! k = Some v -> UserMeta v <> Meta_Byte ObjectMeta) /\
       acc !! k = Some obj).
Proof.
  induction keys as [|k0 rest IH]; intros Hall acc.
  - exists acc. split; [done|]. intros k obj. split.
    + intros H. right. split; [|done]. left. by intros ?%elem_of_nil.
    + intros [[H _]|[_ H]]; [by apply elem_of_nil in H|done].
  - destruct (Hall k0) as (v0 & Hv0 & Hdec0); [by apply elem_of_cons; left|].
    assert (Hrest : forall k, k ∈ rest -> exists v,
               Txn_view now txn !! k = Some v /\
               (UserMeta v = Meta_Byte ObjectMeta -> is_Some (proto_Unmarshal (Value v)))).
    { intros k Hk. apply Hall. by apply elem_of_cons; right. }
    simpl. unfold Txn_Get. rewrite Hv0.
    unfold Item_UserMeta, Item_ValueCopy. simpl.
    destruct (Z.eqb_spec (UserMeta v0) (Meta_Byte ObjectMeta)) as [Ht|Ht]; simpl.
    + destruct (Hdec0 Ht) as [obj0 Hobj0]. rewrite Hobj0.
      destruct (IH Hrest (<[k0 := obj0]> acc)) as (m & -> & Hm).
      exists m. split; [done|]. intros k obj. rewrite Hm. split.
      * intros [[Hin Hv]|[Hout Hacc]].
        { left. split; [by apply elem_of_cons; right|done]. }
        destruct (decide (k = k0)) as [->|Hne].
        { rewrite lookup_insert_eq in Hacc. injection Hacc as <-.
          left. split; [by apply elem_of_cons; left|]. by exists v0. }
        rewrite lookup_insert_ne in Hacc by done. right. split; [|done].
        destruct Hout as [Hout|Hout]; [left|by right].
        intros [?|?]%elem_of_cons; done.
      * intros [[Hin (v & Hv & Hho)]|[Hout Hacc]].
        { destruct (decide (k ∈ rest)) as [Hr|Hr]; [left; split; [done|by exists v]|].
          apply elem_of_cons in Hin as [->|Hin]; [|done].
          right. split; [by left|].
          rewrite lookup_insert_eq. destruct Hho as [_ Hho]. congruence. }
        assert (k <> k0) as Hne.
        { intros ->. destruct Hout as [Hout|Hout].
          - apply Hout. by apply elem_of_cons; left.
          - by apply (Hout v0). }
        right. split; [|by rewrite lookup_insert_ne].
        destruct Hout as [Hout|Hout]; [left|by right].
        intros Hr. apply Hout. by apply elem_of_cons; right.
    + destruct (IH Hrest acc) as (m & -> & Hm).
      exists m. split; [done|]. intros k obj. rewrite Hm. split.
      * intros [[Hin Hv]|[Hout Hacc]].
        { left. split; [by apply elem_of_cons; right|done]. }
        right. split; [|done].
        destruct Hout as [Hout|Hout]; [|by right].
        destruct (decide (k = k0)) as [->|Hne].
        -- right. intros v Hv. congruence.
        -- left. intros [?|?]%elem_of_cons; done.
      * intros [[Hin (v & Hv & Hho)]|[Hout Hacc]].
        { apply elem_of_cons in Hin as [->|Hin].
          - destruct Hho as [Hho _]. congruence.
          - left. split; [done|by exists v]. }
        right. split; [|done].
        destruct Hout as [Hout|Hout]; [left|by right].
        intros Hr. apply Hout. by apply elem_of_cons; right.
Qed.

(** X2.  When every requested key is visible and every requested entry with
    the object tag decodes, [Get] succeeds and returns, for exactly the
    requested keys whose entry has the object tag, the decoded object;
    requested entries with another tag are left out without an error. *)
Theorem Get_returns_requested_objects (now : Z) (db : gmap string ValueStruct)
    (keys : list string) :
  (forall k, k ∈ keys -> exists v,
     Txn_view now (NewTransaction db false) !! k = Some v /\
     (UserMeta v = Meta_Byte ObjectMeta -> is_Some (proto_Unmarshal (Value v)))) ->
  exists m,
    GeoDB_Get now db keys = Ok m /\
    forall k obj,
      m !! k = Some obj <->
      k ∈ keys /\
      exists v, Txn_view now (NewTransaction db false) !! k = Some v /\
                holds_object v obj.
Proof.
  intros Hall. unfold GeoDB_Get.
  destruct (Get_loop_spec now (NewTransaction db false) keys Hall ∅) as (m & Hm & Hspec).
  exists m. split; [exact Hm|]. intros k obj. rewrite Hspec. split.
  - intros [H|[_ H]]; [done|by rewrite lookup_empty in H].
  - intros H. by left.
Qed.

(** X3.  One requested key that is not visible (absent, deleted or
    expired) fails the whole [Get], whatever the other keys are: no partial
    result is returned.  The error is the lookup error unless an earlier key
    has already failed to decode. *)
Theorem Get_fails_on_missing_key (now : Z) (db : gmap string ValueStruct)
    (keys : list string) (k : string) :
  k ∈ keys ->
  Txn_view now (NewTransaction db false) !! k = None ->
  GeoDB_Get now db keys = Err ErrKeyNotFound \/
  GeoDB_Get now db keys = Err ErrProtoDecode.
Proof.
  intros Hin Hk. unfold GeoDB_Get.
  generalize (∅ : gmap string api_Object).
  induction keys as [|k0 rest IH]; intros acc; [by apply elem_of_nil in Hin|].
  simpl. unfold Txn_Get.
  destruct (Txn_view now (NewTransaction db false) !! k0) as [v0|] eqn:Hv0; [|by left].
  assert (k ∈ rest) as Hr.
  { apply elem_of_cons in Hin as [->|?]; [congruence|done]. }
  destruct (negb _); [by apply IH|].
  destruct (proto_Unmarshal _); [by apply IH|by right].
Qed.

End more_reads.

Section scans.
Context {ext : External}.

(** A successful scan has decoded everything it kept. *)
Lemma collect_Ok_spec (keep : string -> bool) (l : list Item)
    (m : gmap string api_Object) :
  NoDup l.*1 ->
  collect keep l ∅ = Ok m ->
  forall k obj,
    m !! k = Some obj <->
    exists v, (k, v) ∈ l /\ keep k = true /\ holds_object v obj.
Proof.
  intros Hnd Hm.
  destruct (collect_spec keep l Hnd) with (acc := (∅ : gmap string api_Object))
    as (m' & Hm' & Hspec).
  - intros k v Hin Ht Hk.
    destruct (proto_Unmarshal (Value v)) as [obj|] eqn:Hdec; [by eexists|].
    rewrite (collect_decode_error keep l k v Hin Ht Hk Hdec) in Hm. discriminate.
  - assert (m' = m) as -> by congruence.
    intros k obj. rewrite Hspec. split.
    + intros [H|[_ H]]; [done|by rewrite lookup_empty in H].
    + intros H. by left.
Qed.

Lemma Seek_Ok_spec (now : Z) (db : gmap string ValueStruct) (Prefix : string)
    (m : gmap string api_Object) :
  GeoDB_Seek now db Prefix = Ok m ->
  forall k obj,
    m !! k = Some obj <->
    HasPrefix k Prefix = true /\
    exists v, Txn_view now (NewTransaction db false) !! k = Some v /\
              holds_object v obj.
Proof.
  unfold GeoDB_Seek, Iterator_Seek.
  rewrite Seek_skip_collect by apply Sorted_Iterator_Rewind.
  intros Hm k obj.
  rewrite (collect_Ok_spec _ _ _ (NoDup_Iterator_Rewind _ _) Hm). split.
  - intros (v & Hin & Hp & Hho). split; [done|]. exists v.
    split; [by apply elem_of_Iterator_Rewind|done].
  - intros (Hp & v & Hv & Hho). exists v.
    split; [by apply elem_of_Iterator_Rewind|done].
Qed.

Lemma GetRegex_Ok_spec (now : Z) (db : gmap string ValueStruct) (Regex : string)
    (m : gmap string api_Object) :
  GeoDB_GetRegex now db Regex = Ok m ->
  forall k obj,
    m !! k = Some obj ->
    exists v, Txn_view now (NewTransaction db false) !! k = Some v /\
              holds_object v obj.
Proof.
  unfold GeoDB_GetRegex. intros Hm k obj Hk.
  destruct (regexp_Compile Regex) as [re|] eqn:Hre.
  - rewrite (GetRegex_loop_collect _ _ _ Hre) in Hm.
    apply (collect_Ok_spec _ _ _ (NoDup_Iterator_Rewind _ _) Hm) in Hk
      as (v & Hin & _ & Hho).
    exists v. split; [by apply elem_of_Iterator_Rewind|done].
  - rewrite (GetRegex_loop_invalid _ _ Hre) in Hm.
    destruct (existsb _ _); [done|]. injection Hm as <-.
    by rewrite lookup_empty in Hk.
Qed.

Lemma Get_one (now : Z) (db : gmap string ValueStruct) (k : string)
    (v : ValueStruct) (obj : api_Object) :
  Txn_view now (NewTransaction db false) !! k = Some v ->
  holds_object v obj ->
  GeoDB_Get now db [k] = Ok {[ k := obj ]}.
Proof.
  intros Hv [Ht Hdec]. unfold GeoDB_Get. simpl. unfold Txn_Get. rewrite Hv.
  unfold Item_UserMeta, Item_ValueCopy. simpl.
  rewrite Ht, Z.eqb_refl. simpl. rewrite Hdec. by rewrite insert_empty.
Qed.

(** X4.  The scans and the lookup agree: whatever object [Seek] or
    [GetRegex] returns under a key, a [Get] of that key at the same time
    returns the same object. *)
Theorem scan_results_agree_with_Get (now : Z) (db : gmap string ValueStruct)
    (Prefix Regex : string) (m : gmap string api_Object) (k : string)
    (obj : api_Object) :
  GeoDB_Seek now db Prefix = Ok m \/ GeoDB_GetRegex now db Regex = Ok m ->
  m !! k = Some obj ->
  GeoDB_Get now db [k] = Ok {[ k := obj ]}.
Proof.
  intros [Hm|Hm] Hk.
  - apply (Seek_Ok_spec _ _ _ _ Hm) in Hk as (_ & v & Hv & Hho). by eapply Get_one.
  - apply (GetRegex_Ok_spec _ _ _ _ Hm) in Hk as (v & Hv & Hho). by eapply Get_one.
Qed.

Lemma HasPrefix_trans (s q p : string) :
  HasPrefix s q = true -> HasPrefix q p = true -> HasPrefix s p = true.
Proof.
  unfold HasPrefix. revert s q.
  induction p as [|a p IH]; intros s q; [by destruct s|].
  destruct q as [|b q]; [done|]. destruct s as [|c s]; [done|]. simpl.
  destruct (ascii_dec b c) as [->|]; [|done].
  destruct (ascii_dec a c) as [->|]; [|done].
  apply IH.
Qed.

(** X5.  A longer prefix narrows the answer: when [q] has the prefix [p],
    every object [Seek] returns for [q] it also returns, under the same key,
    for [p]. *)
Theorem Seek_longer_prefix_narrows (now : Z) (db : gmap string ValueStruct)
    (p q : string) (mp mq : gmap string api_Object) :
  HasPrefix q p = true ->
  GeoDB_Seek now db p = Ok mp ->
  GeoDB_Seek now db q = Ok mq ->
  mq ⊆ mp.
Proof.
  intros Hqp Hp Hq. apply map_subseteq_spec. intros k obj Hk.
  apply (Seek_Ok_spec _ _ _ _ Hq) in Hk as (Hkq & Hv).
  apply (Seek_Ok_spec _ _ _ _ Hp). split; [|done]. by eapply HasPrefix_trans.
Qed.

Lemma elem_of_Set_scan_tag val point1 (l : list Item) event :
  event ∈ Set_scan val point1 l ->
  exists k v, (k, v) ∈ l /\ holds_object v (Object event).
Proof.
  intros (k & v & obj & p & Hin & Hho & _ & _ & ->)%elem_of_Set_scan.
  by exists k, v.
Qed.

(** X6.  The tag is checked on every read path.  A visible entry whose tag
    is not the object tag is not listed by [Keys], is left out of a [Get]
    that asks for it (the call succeeds with the empty result), and is in no
    result of [Seek] or [GetRegex]. *)
Theorem other_tags_are_skipped (now : Z) (db : gmap string ValueStruct)
    (k : string) (v : ValueStruct) :
  Txn_view now (NewTransaction db false) !! k = Some v ->
  UserMeta v <> Meta_Byte ObjectMeta ->
  (forall keys, GeoDB_Keys now db = Ok keys -> k ∉ keys) /\
  GeoDB_Get now db [k] = Ok ∅ /\
  (forall Prefix m, GeoDB_Seek now db Prefix = Ok m -> m !! k = None) /\
  (forall Regex m, GeoDB_GetRegex now db Regex = Ok m -> m !! k = None).
Proof.
  intros Hv Ht. split; [|split; [|split]].
  - intros keys [= <-] (v' & Hin & Ht')%elem_of_Keys_loop.
    apply elem_of_Iterator_Rewind in Hin. congruence.
  - unfold GeoDB_Get. simpl. unfold Txn_Get. rewrite Hv.
    unfold Item_UserMeta. simpl.
    by destruct (Z.eqb_spec (UserMeta v) (Meta_Byte ObjectMeta)).
  - intros Prefix m Hm. apply eq_None_not_Some. intros [obj Hobj].
    apply (Seek_Ok_spec _ _ _ _ Hm) in Hobj as (_ & v' & Hv' & Ht' & _). congruence.
  - intros Regex m Hm. apply eq_None_not_Some. intros [obj Hobj].
    apply (GetRegex_Ok_spec _ _ _ _ Hm) in Hobj as (v' & Hv' & Ht' & _). congruence.
Qed.

End scans.

(** ** Further properties of [Set] *)

Section more_writes.
Context {ext : External}.

(** A read-only view of a key depends on the store at that key only. *)
Lemma lookup_view_read_eq (now : Z) (db1 db2 : gmap string ValueStruct) (k : string) :
  db1 !! k = db2 !! k ->
  Txn_view now (NewTransaction db1 false) !! k =
  Txn_view now (NewTransaction db2 false) !! k.
Proof.
  intros H. apply option_eq. intros v. rewrite !lookup_Txn_view_read. by rewrite H.
Qed.

Lemma Get_loop_ext (now : Z) (txn1 txn2 : Txn) (keys : list string) :
  (forall k, k ∈ keys -> Txn_view now txn1 !! k = Txn_view now txn2 !! k) ->
  forall acc, Get_loop now txn1 keys acc = Get_loop now txn2 keys acc.
Proof.
  induction keys as [|k0 rest IH]; intros H acc; [done|].
  simpl. unfold Txn_Get. rewrite (H k0) by (by apply elem_of_cons; left).
  assert (forall k, k ∈ rest -> Txn_view now txn1 !! k = Txn_view now txn2 !! k) as Hr.
  { intros k Hk. apply H. by apply elem_of_cons; right. }
  destruct (Txn_view now txn2 !! k0); [|done].
  destruct (negb _); [by apply IH|].
  destruct (proto_Unmarshal _); [by apply IH|done].
Qed.

(** Whatever a request does, it does under its own keys. *)
Lemma Set_goroutines_frame cond (objects : list (string * api_Object))
    (db db' : gmap string ValueStruct) out k :
  Set_goroutines cond objects db = Returned (db', out) ->
  k ∉ objects.*1 -> db' !! k = db !! k.
Proof.
  revert db db' out. induction objects as [|[k0 v0] rest IH]; intros db db' out; simpl.
  - by intros [= <- _].
  - destruct (Set_goroutine (cond k0) k0 v0 db) as [[db1 out1]|] eqn:Hg; [|done].
    destruct (Set_goroutines cond rest db1) as [[db2 out2]|] eqn:Hr; [|done].
    intros [= <- _] [Hne Hk]%not_elem_of_cons.
    rewrite (IH _ _ _ Hr Hk). apply Set_goroutine_store in Hg. rewrite Hg.
    destruct (SetEntry_fault (cond k0)), (Commit_fault (cond k0)); try done.
    by rewrite lookup_insert_ne.
Qed.

(** X7.  [Set] leaves the rest of the store alone: a [Get] of keys that
    are not in the request answers after the [Set] as it did before, at any
    time. *)
Theorem Set_leaves_other_keys (cond : string -> Conditions)
    (objects : list (string * api_Object)) (db db' : gmap string ValueStruct)
    (r : result api_SetResponse) (out : list Published) (later : Z)
    (keys : list string) :
  GeoDB_Set cond objects db = Returned (r, db', out) ->
  (forall k, k ∈ keys -> k ∉ objects.*1) ->
  GeoDB_Get later db' keys = GeoDB_Get later db keys.
Proof.
  unfold GeoDB_Set.
  destruct (Set_goroutines cond objects db) as [[db1 out1]|] eqn:Hrun; [|done].
  intros [= _ <- _] Hout. unfold GeoDB_Get. apply Get_loop_ext.
  intros k Hk. apply lookup_view_read_eq.
  eapply Set_goroutines_frame; [exact Hrun|by apply Hout].
Qed.

Lemma written_visible (later : Z) (val : api_Object) :
  uint64 (ExpiresUnix val) = 0 \/ uint64 later < uint64 (ExpiresUnix val) ->
  isExpired later (Set_written val) = false.
Proof.
  intros Hlive. unfold isExpired, Set_written. simpl.
  destruct Hlive as [->|Hlt]; [done|].
  apply andb_false_iff. right. by apply Z.leb_gt.
Qed.

(** X8.  After a [Set] in which nothing failed and nothing has expired by
    the time of reading, [Keys] lists the keys it listed before together
    with the keys of the request, in whatever order the request was
    processed. *)
Theorem Set_then_Keys (cond : string -> Conditions)
    (objects : list (string * api_Object)) (db : gmap string ValueStruct)
    (later : Z) :
  NoDup objects.*1 ->
  (forall k v, (k, v) ∈ objects ->
     is_Some (Point v) /\
     SetEntry_fault (cond k) = None /\ Commit_fault (cond k) = None /\
     (uint64 (ExpiresUnix v) = 0 \/ uint64 later < uint64 (ExpiresUnix v))) ->
  exists db' out before after,
    GeoDB_Set cond objects db = Returned (Ok SetResponse, db', out) /\
    GeoDB_Keys later db = Ok before /\
    GeoDB_Keys later db' = Ok after /\
    forall k, k ∈ after <-> k ∈ objects.*1 \/ k ∈ before.
Proof.
  intros Hnd Hall.
  destruct (Set_goroutines_store cond objects db Hnd) as (db' & out & Hrun & Hin & Hout).
  { intros k v Hkv _. exact (proj1 (Hall k v Hkv)). }
  exists db', out. eexists _, _.
  split; [unfold GeoDB_Set; by rewrite Hrun|]. split; [reflexivity|].
  split; [reflexivity|].
  intros k. rewrite !elem_of_Keys_loop.
  destruct (decide (k ∈ objects.*1)) as [Hk|Hk].
  - split; [by left|]. intros _.
    apply list_elem_of_fmap in Hk as ([k' v] & -> & Hkv). simpl.
    destruct (Hall _ _ Hkv) as (_ & Hf & Hc & Hlive).
    specialize (Hin _ _ Hkv). rewrite Hf, Hc in Hin.
    exists (Set_written (Set_stamp (cond k') k' v)). split; [|done].
    apply elem_of_Iterator_Rewind, lookup_Txn_view_read. split; [done|].
    apply written_visible. by rewrite Set_stamp_ExpiresUnix.
  - assert (forall v, (k, v) ∈ Iterator_Rewind later (NewTransaction db' false) <->
                      (k, v) ∈ Iterator_Rewind later (NewTransaction db false)) as Hsame.
    { intros v. rewrite !elem_of_Iterator_Rewind.
      by rewrite (lookup_view_read_eq later db' db k (Hout k Hk)). }
    split.
    + intros (v & Hv & Ht). right. exists v. by rewrite <- Hsame.
    + intros [?|(v & Hv & Ht)]; [done|]. exists v. by rewrite Hsame.
Qed.

(** X9.  The object and its events are published before the commit.  When
    the engine accepts the entry and refuses the commit, the store stays as
    it was, and yet the object has been published, followed by the events of
    its scan. *)
Theorem Set_publishes_before_commit (c : Conditions) (key : string)
    (val : api_Object) (db : gmap string ValueStruct) (p : api_Point) (e : error) :
  Point val = Some p ->
  SetEntry_fault c = None ->
  Commit_fault c = Some e ->
  exists events,
    Set_goroutine c key val db =
      Returned (db, PublishObject (Set_stamp c key val) :: (PublishEvent <$> events)) /\
    forall event, event ∈ events -> TriggerObject event = Set_stamp c key val.
Proof.
  intros Hp Hf Hc.
  pose proof (Set_goroutine_cases c key val db) as Hg.
  rewrite Hf, Hp, Hc in Hg. destruct Hg as (txn & _ & Hg). simpl in Hg.
  eexists. split; [exact Hg|].
  intros event (k & v & obj & q & _ & _ & _ & _ & ->)%elem_of_Set_scan. done.
Qed.

End more_writes.

Section more_writes2.
Context {ext : External}.

(** X10.  What a goroutine of [Set] publishes is sound.  The only object it
    publishes is the stamped object of the request.  Every event it
    publishes has that object as trigger and its [UpdatedUnix] as timestamp;
    the matched object has a point and was decoded from an object-tagged
    entry, either the entry being written or an unexpired entry of the store
    under another key; and the distance of the event is the one computed for
    the two points and is at most [float64] of the sum of the two radii. *)
Theorem Set_publishes_sound_events (c : Conditions) (key : string)
    (val : api_Object) (db db' : gmap string ValueStruct) (out : list Published) :
  Set_goroutine c key val db = Returned (db', out) ->
  let A := Set_stamp c key val in
  (forall obj, PublishObject obj ∈ out -> obj = A) /\
  forall event, PublishEvent event ∈ out ->
    TriggerObject event = A /\
    TimestampUnix event = UpdatedUnix A /\
    (exists k v,
       holds_object v (Object event) /\ isExpired (now c) v = false /\
       (k = key /\ v = Set_written A \/ k <> key /\ db !! k = Some v)) /\
    exists pA pB,
      Point A = Some pA /\ Point (Object event) = Some pB /\
      Distance event = Set_distance (geo_NewPointFromLatLng (Lat pA) (Lon pA)) pB /\
      PrimFloat.leb (Distance event)
        (float64 (int64_add (Radius A) (Radius (Object event)))) = true.
Proof.
  intros Hrun A.
  pose proof (Set_goroutine_cases c key val db) as Hg.
  destruct (SetEntry_fault c) eqn:Hf.
  { rewrite Hg in Hrun. injection Hrun as <- <-.
    split; [intros obj H|intros event H]; by apply elem_of_nil in H. }
  destruct (Point val) as [pA|] eqn:HpA; [|congruence].
  destruct Hg as (txn & Hst & Hg). simpl in Hg. rewrite Hg in Hrun.
  injection Hrun as _ <-. fold A. split.
  - intros obj [[= ->]|Hin]%elem_of_cons; [done|].
    by apply list_elem_of_fmap in Hin as (e & [=] & _).
  - intros event [[=]|Hin]%elem_of_cons.
    apply list_elem_of_fmap in Hin as (e & [= <-] & Hin).
    apply elem_of_Set_scan in Hin as (k & v & obj & pB & Hin & Hho & HpB & Hw & ->).
    simpl. split; [done|]. split; [done|]. split.
    + apply elem_of_Iterator_Rewind, (lookup_staged_view _ _ _ _ _ _ _ Hst) in Hin
        as [Hlive Hwhere].
      exists k, v. split; [done|]. split; [done|].
      destruct (decide (k = key)); [left|right]; done.
    + exists pA, pB. split; [unfold A; by rewrite Set_stamp_Point|].
      split; [done|]. split; [done|]. exact Hw.
Qed.

Lemma Set_one_store (cond : string -> Conditions) (k : string) (v : api_Object)
    (db : gmap string ValueStruct) (p : api_Point) :
  Point v = Some p ->
  SetEntry_fault (cond k) = None ->
  Commit_fault (cond k) = None ->
  exists out,
    GeoDB_Set cond [(k, v)] db =
    Returned (Ok SetResponse, <[k := Set_written (Set_stamp (cond k) k v)]> db, out).
Proof.
  intros Hp Hf Hc. unfold GeoDB_Set. simpl.
  pose proof (Set_goroutine_cases (cond k) k v db) as Hg.
  rewrite Hf, Hp, Hc in Hg. destruct Hg as (txn & _ & Hg). simpl in Hg.
  rewrite Hg. by eexists.
Qed.

(** X11.  The expiry of the request is the expiry of the entry.  An object
    written with a non-zero [ExpiresUnix] is gone once the clock has reached
    it: [Get] of its key fails with the lookup error, and [Keys] does not
    list it. *)
Theorem Set_entry_expires (cond : string -> Conditions) (k : string)
    (v : api_Object) (db : gmap string ValueStruct) (later : Z) (p : api_Point) :
  Point v = Some p ->
  SetEntry_fault (cond k) = None ->
  Commit_fault (cond k) = None ->
  uint64 (ExpiresUnix v) <> 0 ->
  uint64 (ExpiresUnix v) <= uint64 later ->
  exists db' out,
    GeoDB_Set cond [(k, v)] db = Returned (Ok SetResponse, db', out) /\
    GeoDB_Get later db' [k] = Err ErrKeyNotFound /\
    forall keys, GeoDB_Keys later db' = Ok keys -> k ∉ keys.
Proof.
  intros Hp Hf Hc Hnz Hle.
  destruct (Set_one_store cond k v db p Hp Hf Hc) as (out & Hset).
  eexists _, out. split; [exact Hset|].
  assert (Txn_view later
            (NewTransaction (<[k := Set_written (Set_stamp (cond k) k v)]> db) false) !! k
          = None) as Hgone.
  { apply eq_None_not_Some. intros [w Hw].
    apply lookup_Txn_view_read in Hw as [Hw Hlive].
    rewrite lookup_insert_eq in Hw. injection Hw as <-.
    unfold isExpired, Set_written in Hlive. simpl in Hlive.
    rewrite Set_stamp_ExpiresUnix in Hlive.
    apply andb_false_iff in Hlive as [Hz|Hl].
    - apply negb_false_iff, Z.eqb_eq in Hz. done.
    - apply Z.leb_gt in Hl. lia. }
  split.
  - unfold GeoDB_Get. simpl. unfold Txn_Get. by rewrite Hgone.
  - intros keys [= <-] (w & Hin & _)%elem_of_Keys_loop.
    apply elem_of_Iterator_Rewind in Hin. congruence.
Qed.

(** X12.  A negative [ExpiresUnix] does not expire the entry: converted to
    [uint64] it lies beyond every clock reading, so the object is found at
    any non-negative time. *)
Theorem Set_negative_expiry_stays (cond : string -> Conditions) (k : string)
    (v : api_Object) (db : gmap string ValueStruct) (later : Z) (p : api_Point) :
  Point v = Some p ->
  SetEntry_fault (cond k) = None ->
  Commit_fault (cond k) = None ->
  - 2 ^ 63 <= ExpiresUnix v < 0 ->
  0 <= later <= max_int64 ->
  let A := Set_stamp (cond k) k v in
  proto_Unmarshal (proto_Marshal A).1 = Some A ->
  exists db' out,
    GeoDB_Set cond [(k, v)] db = Returned (Ok SetResponse, db', out) /\
    GeoDB_Get later db' [k] = Ok {[ k := A ]}.
Proof.
  intros Hp Hf Hc Hneg Hlater A Hcodec.
  destruct (Set_one_store cond k v db p Hp Hf Hc) as (out & Hset).
  eexists _, out. split; [exact Hset|].
  apply (Get_one later _ k (Set_written A)); [|by split].
  apply lookup_Txn_view_read. split; [by rewrite lookup_insert_eq|].
  apply written_visible. right. unfold A. rewrite Set_stamp_ExpiresUnix.
  unfold uint64, max_int64 in *.
  rewrite (Z.mod_small later) by lia.
  replace (ExpiresUnix v) with ((ExpiresUnix v + 2 ^ 64) + (-1) * 2 ^ 64) by lia.
  rewrite Z.mod_add by lia. rewrite Z.mod_small by lia. lia.
Qed.

End more_writes2.

(** ** Further properties of the hub and of [Stream] *)

Section more_streams.
Context {ext : External}.

Lemma Stream_loop_unfiltered id h (msgs : list api_Object) :
  is_Some (GetClientObjectStream id h) ->
  Stream_loop EmptyString id h (Received <$> msgs) = (h, msgs, None).
Proof.
  intros [ch Hch]. induction msgs as [|msg rest IH]; [done|].
  rewrite fmap_cons. cbn [Stream_loop Stream_iteration String.eqb negb].
  rewrite Hch. cbn beta iota. by rewrite IH.
Qed.

Lemma Stream_loop_filtered Regex re id h (msgs : list api_Object) :
  Regex <> EmptyString -> regexp_Compile Regex = Some re ->
  is_Some (GetClientObjectStream id h) ->
  Stream_loop Regex id h (Received <$> msgs) =
  (h, filter (fun msg => Regexp_MatchString re (Key msg) = true) msgs, None).
Proof.
  intros Hne Hre [ch Hch]. induction msgs as [|msg rest IH]; [done|].
  rewrite fmap_cons. cbn [Stream_loop Stream_iteration].
  rewrite Hch. apply String.eqb_neq in Hne. rewrite Hne. cbn [negb].
  unfold regexp_MatchString. rewrite Hre.
  destruct (Regexp_MatchString re (Key msg)) eqn:Hm; cbn beta iota; rewrite IH.
  - by rewrite filter_cons_True.
  - rewrite filter_cons_False; [done|]. by rewrite Hm.
Qed.

Lemma GetClientObjectStream_Add uuid ch ClientId h :
  GetClientObjectStream (AddObjectStreamClient uuid ch ClientId h).1
    (AddObjectStreamClient uuid ch ClientId h).2 = Some ch.
Proof. unfold GetClientObjectStream. simpl. by rewrite lookup_insert_eq. Qed.

(** X13.  While its client is registered, [Stream] forwards what arrives in
    the order of arrival: everything when the request has no pattern, and
    with a pattern that compiles exactly the objects whose key matches it. *)
Theorem Stream_forwards_matching (uuid : string) (ch : chan)
    (ClientId Regex : string) (h : Hub) (msgs : list api_Object) :
  (Regex = EmptyString ->
   (GeoDB_Stream uuid ch ClientId Regex h (Received <$> msgs)).1.2 = msgs) /\
  (forall re, Regex <> EmptyString -> regexp_Compile Regex = Some re ->
   (GeoDB_Stream uuid ch ClientId Regex h (Received <$> msgs)).1.2 =
     filter (fun msg => Regexp_MatchString re (Key msg) = true) msgs).
Proof.
  unfold GeoDB_Stream.
  pose proof (GetClientObjectStream_Add uuid ch ClientId h) as Hreg.
  destruct (AddObjectStreamClient uuid ch ClientId h) as [id h1]. simpl in Hreg.
  split.
  - intros ->. by rewrite Stream_loop_unfiltered.
  - intros re Hne Hre. by rewrite (Stream_loop_filtered _ re).
Qed.

(** X14.  A pattern that does not compile is noticed at the first object
    that arrives, not when the call starts: before any object the call is in
    its loop, and at the first one it returns the pattern error and forwards
    nothing. *)
Theorem Stream_bad_pattern_fails_at_first_object (uuid : string) (ch : chan)
    (ClientId Regex : string) (h : Hub) (msg : api_Object)
    (rest : list (select_case api_Object)) :
  Regex <> EmptyString ->
  regexp_Compile Regex = None ->
  (GeoDB_Stream uuid ch ClientId Regex h []).2 = None /\
  (GeoDB_Stream uuid ch ClientId Regex h (Received msg :: rest)).1.2 = [] /\
  (GeoDB_Stream uuid ch ClientId Regex h (Received msg :: rest)).2 =
    Some ErrRegexpSyntax.
Proof.
  intros Hne Hre. unfold GeoDB_Stream.
  pose proof (GetClientObjectStream_Add uuid ch ClientId h) as Hreg.
  destruct (AddObjectStreamClient uuid ch ClientId h) as [id h1]. simpl in Hreg.
  split; [done|]. simpl. rewrite Hreg.
  apply String.eqb_neq in Hne. rewrite Hne. simpl.
  unfold regexp_MatchString. by rewrite Hre.
Qed.


Lemma RemoveObjectStreamClient_lookup id id' h :
  objectClients (RemoveObjectStreamClient id h) !! id' =
  if decide (id = id') then None else objectClients h !! id'.
Proof.
  unfold RemoveObjectStreamClient.
  destruct (objectClients h !! id) eqn:Hid; simpl.
  - by rewrite lookup_delete.
  - case_decide; congruence.
Qed.


(** X16.  The object clients form a registry keyed by client id.  A
    registration answers with the given id, or with the generated one when
    none was given; the id then looks up the new channel and no other id is
    affected.  Registering the id again replaces the channel, and removing
    it is final until the next registration. *)
Theorem object_client_registry (uuid : string) (ch ch' : chan)
    (ClientId : string) (h : Hub) :
  let id := (AddObjectStreamClient uuid ch ClientId h).1 in
  let h1 := (AddObjectStreamClient uuid ch ClientId h).2 in
  id = (if String.eqb ClientId "" then uuid else ClientId) /\
  GetClientObjectStream id h1 = Some ch /\
  (forall id', id' <> id ->
     GetClientObjectStream id' h1 = GetClientObjectStream id' h) /\
  (id <> EmptyString ->
   (AddObjectStreamClient uuid ch' id h1).1 = id /\
   GetClientObjectStream id (AddObjectStreamClient uuid ch' id h1).2 = Some ch') /\
  GetClientObjectStream id (RemoveObjectStreamClient id h1) = None /\
  (forall id', id' <> id ->
     GetClientObjectStream id' (RemoveObjectStreamClient id h1) =
     GetClientObjectStream id' h) /\
  eventClients h1 = eventClients h.
Proof.
  simpl. set (id := if String.eqb ClientId "" then uuid else ClientId).
  unfold GetClientObjectStream. simpl.
  split; [done|]. split; [by rewrite lookup_insert_eq|].
  split; [intros id' Hne; by rewrite lookup_insert_ne|].
  split.
  { intros Hne. apply String.eqb_neq in Hne. rewrite Hne.
    split; [done|]. by rewrite lookup_insert_eq. }
  split.
  - rewrite RemoveObjectStreamClient_lookup. by rewrite decide_True.
  - split; [|done]. intros id' Hne. rewrite RemoveObjectStreamClient_lookup.
    rewrite decide_False by done. simpl. by rewrite lookup_insert_ne.
Qed.

End more_streams.

Section more_hub.
Context {ext : External}.

Lemma StartObjectStream_app h (c1 c2 : list (ingress_case api_Object)) :
  StartObjectStream h (c1 ++ c2) = StartObjectStream h c1 ++ StartObjectStream h c2.
Proof.
  induction c1 as [|[obj|] c1 IH]; simpl; [done| |done].
  by rewrite IH, app_assoc.
Qed.

Lemma StartEventStream_app h (c1 c2 : list (ingress_case api_Event)) :
  StartEventStream h (c1 ++ c2) = StartEventStream h c1 ++ StartEventStream h c2.
Proof.
  induction c1 as [|[event|] c1 IH]; simpl; [done| |done].
  by rewrite IH, app_assoc.
Qed.

(** X19.  The dispatchers do not stop when their context is done: the
    [break] ends the [select], the loop goes on, and what arrives after the
    cancellation is sent round as before. *)
Theorem dispatchers_ignore_cancellation (h : Hub)
    (before after : list (ingress_case api_Object))
    (before' after' : list (ingress_case api_Event)) :
  StartObjectStream h (before ++ CtxDone :: after) =
    StartObjectStream h before ++ StartObjectStream h after /\
  StartEventStream h (before' ++ CtxDone :: after') =
    StartEventStream h before' ++ StartEventStream h after'.
Proof. by rewrite StartObjectStream_app, StartEventStream_app. Qed.

End more_hub.

Local Open Scope string_scope.

(** ** The claims on concrete data *)

(** Every visible entry of [demo.db_a] is the object under "a". *)
Lemma db_a_view (now : Z) (k : string) (v : @ValueStruct demo.libraries) :
  Txn_view now (NewTransaction demo.db_a false) !! k = Some v ->
  k = "a" /\ v = demo.stored "a" demo.object_a.
Proof.
  intros [H _]%lookup_Txn_view_read. unfold demo.db_a in H.
  by apply lookup_singleton_Some in H as [<- <-].
Qed.

(** C4, counterexample.  On a store that holds one object, [Seek] with the
    empty prefix returns that object: it is a full scan, not an empty
    answer. *)
Lemma Seek_empty_prefix_is_a_full_scan :
  GeoDB_Seek (ext := demo.libraries) 100 demo.db_a "" =
    Ok {[ "a" := demo.stamped "a" demo.object_a ]} /\
  GeoDB_Seek (ext := demo.libraries) 100 demo.db_a "" <> Ok ∅.
Proof.
  assert (GeoDB_Seek (ext := demo.libraries) 100 demo.db_a "" =
          Ok {[ "a" := demo.stamped "a" demo.object_a ]}) as Heq
    by (vm_compute; reflexivity).
  split; [exact Heq|]. rewrite Heq. intros H.
  assert (({[ "a" := demo.stamped "a" demo.object_a ]} : gmap string api_Object) !! "a"
          = (∅ : gmap string api_Object) !! "a") as Ha by congruence.
  by rewrite lookup_singleton_eq, lookup_empty in Ha.
Qed.

(** C4, witness: the prefix "a" over [demo.db_a]. *)
Lemma Seek_returns_prefixed_objects_witness :
  exists m,
    GeoDB_Seek (ext := demo.libraries) 100 demo.db_a "a" = Ok m /\
    m !! "a" = Some (demo.stamped "a" demo.object_a).
Proof.
  destruct (proj1 (Seek_returns_prefixed_objects (ext := demo.libraries) 100
                     demo.db_a "a"))
    as (m & Hm & Hlook & _).
  - intros k v [-> ->]%db_a_view _ _. by eexists.
  - exists m. split; [exact Hm|]. apply Hlook. split; [reflexivity|].
    exists (demo.stored "a" demo.object_a). split; [|split]; reflexivity.
Defined.

(** C7, counterexample.  The pattern "(" does not compile, and [GetRegex]
    of it over the empty store succeeds with the empty result. *)
Lemma GetRegex_bad_pattern_on_empty_store :
  regexp_Compile (External := demo.libraries) "(" = None /\
  GeoDB_GetRegex (ext := demo.libraries) 100 ∅ "(" = Ok ∅.
Proof. split; vm_compute; reflexivity. Qed.

(** C7, witness: the pattern "a" over [demo.db_a], and the pattern "(" over
    the same store. *)
Lemma GetRegex_by_pattern_witness :
  (exists m,
     GeoDB_GetRegex (ext := demo.libraries) 100 demo.db_a "a" = Ok m /\
     m !! "a" = Some (demo.stamped "a" demo.object_a)) /\
  GeoDB_GetRegex (ext := demo.libraries) 100 demo.db_a "(" = Err ErrRegexpSyntax.
Proof.
  split.
  - destruct (proj1 (GetRegex_by_pattern (ext := demo.libraries) 100 demo.db_a "a"))
      as (m & Hm & Hlook).
    + intros k v [-> ->]%db_a_view _ _. by eexists.
    + exists m. split; [exact Hm|]. apply Hlook. split; [reflexivity|].
      exists (demo.stored "a" demo.object_a). split; [|split]; reflexivity.
  - apply (GetRegex_by_pattern (ext := demo.libraries) 100 demo.db_a "(").
    exists "a", (demo.stored "a" demo.object_a). split; reflexivity.
Defined.

(** C5, witness: "b" is written about 6.8 m east of "a"; both have radius
    5, and the event carries that distance. *)
Lemma Set_event_iff_within_radii_witness :
  exists db' out,
    Set_go_func (ext := demo.libraries) None demo.fair "b" (Some demo.object_near)
      demo.db_a = (Returns tt, db', out) /\
    PublishEvent {| TriggerObject := demo.stamped "b" demo.object_near;
                    Object := demo.stamped "a" demo.object_a;
                    Distance := demo.distance {| geo_Lat := 0; geo_Lng := demo.near |}
                                  {| geo_Lat := 0; geo_Lng := 0 |} true;
                    TimestampUnix := 100 |} ∈ out.
Proof.
  destruct (Set_event_iff_within_radii (ext := demo.libraries) demo.fair "b"
              demo.object_near demo.db_a demo.staged_near
              {| Lat := 0; Lon := demo.near |}
              "a" (demo.stored "a" demo.object_a) (demo.stamped "a" demo.object_a))
    as (db' & out & Hrun & Hiff & _).
  - vm_compute. reflexivity.
  - reflexivity.
  - vm_compute. reflexivity.
  - split; reflexivity.
  - exists db', out. split; [exact Hrun|]. apply Hiff. vm_compute. reflexivity.
Defined.

(** C5 on concrete data: written a degree east of "a", "b" gets its
    self-event and no event with "a". *)
Example Set_far_from_candidate_example :
  Set_go_func (ext := demo.libraries) None demo.fair "b" (Some demo.object_far)
    demo.db_a =
  (Returns tt,
   <["b" := demo.stored "b" demo.object_far]> demo.db_a,
   [PublishObject (demo.stamped "b" demo.object_far);
    PublishEvent {| TriggerObject := demo.stamped "b" demo.object_far;
                    Object := demo.stamped "b" demo.object_far;
                    Distance := 0; TimestampUnix := 100 |}]).
Proof. vm_compute. reflexivity. Qed.

(** C5, counterexample.  "a" is stored with radius 2^62 and "b" is written
    at the same place with the same radius.  The distance of the two points
    is 0 and the sum of the two radii is 2^63, so the distance is within the
    sum (0 <= 2^63, also as binary64 numbers); but the [int64] sum is -2^63,
    the test of line 91 fails, and the object is all that is published: no
    event pairs "b" with "a". *)
Lemma Set_within_radii_without_event :
  GeoDistanceFrom (External := demo.libraries)
    {| geo_Lat := 0; geo_Lng := 0 |} {| geo_Lat := 0; geo_Lng := 0 |} true = 0%float /\
  Radius (demo.object_at 0 0 (2 ^ 62) 0) + Radius (demo.object_at 0 0 (2 ^ 62) 0)
    = 2 ^ 63 /\
  PrimFloat.leb 0 9223372036854775808 = true /\
  int64_add (Radius (demo.object_at 0 0 (2 ^ 62) 0))
            (Radius (demo.object_at 0 0 (2 ^ 62) 0)) = - 2 ^ 63 /\
  Set_go_func (ext := demo.libraries) None demo.fair "b"
    (Some (demo.object_at 0 0 (2 ^ 62) 0))
    {[ "a" := demo.stored "a" (demo.object_at 0 0 (2 ^ 62) 0) ]} =
  (Returns tt,
   <["b" := demo.stored "b" (demo.object_at 0 0 (2 ^ 62) 0)]>
     {[ "a" := demo.stored "a" (demo.object_at 0 0 (2 ^ 62) 0) ]},
   [PublishObject (demo.stamped "b" (demo.object_at 0 0 (2 ^ 62) 0))]).
Proof. repeat split; vm_compute; reflexivity. Qed.

(** C6, counterexample.  Three objects with a point and a non-negative
    radius, written into the empty store on a hub that takes every publish.
    The first has an expiry (1) that lies before the clock (100); the second
    has radius 2^62, so that the sum of the two radii of its self-pair wraps
    to a negative [int64]; the third has a latitude that is not a number, so
    that its distance to itself is not 0.  Each is written and published, and
    none gets a self-event: the object is all that is published. *)
Lemma Set_without_self_event :
  (is_Some (Point (demo.object_at 0 0 5 1)) /\
   0 <= Radius (demo.object_at 0 0 5 1) /\
   Set_go_func (ext := demo.libraries) None demo.fair "a"
     (Some (demo.object_at 0 0 5 1)) ∅ =
     (Returns tt, {[ "a" := demo.stored "a" (demo.object_at 0 0 5 1) ]},
      [PublishObject (demo.stamped "a" (demo.object_at 0 0 5 1))])) /\
  (is_Some (Point (demo.object_at 0 0 (2 ^ 62) 0)) /\
   0 <= Radius (demo.object_at 0 0 (2 ^ 62) 0) /\
   Set_go_func (ext := demo.libraries) None demo.fair "a"
     (Some (demo.object_at 0 0 (2 ^ 62) 0)) ∅ =
     (Returns tt, {[ "a" := demo.stored "a" (demo.object_at 0 0 (2 ^ 62) 0) ]},
      [PublishObject (demo.stamped "a" (demo.object_at 0 0 (2 ^ 62) 0))])) /\
  (is_Some (Point (demo.object_at PrimFloat.nan 0 5 0)) /\
   0 <= Radius (demo.object_at PrimFloat.nan 0 5 0) /\
   Set_go_func (ext := demo.libraries) None demo.fair "a"
     (Some (demo.object_at PrimFloat.nan 0 5 0)) ∅ =
     (Returns tt, {[ "a" := demo.stored "a" (demo.object_at PrimFloat.nan 0 5 0) ]},
      [PublishObject (demo.stamped "a" (demo.object_at PrimFloat.nan 0 5 0))])).
Proof.
  repeat split; try (by eexists); try (simpl; lia); vm_compute; reflexivity.
Qed.

(** C6, witness: the object of radius 5 at the origin, into the empty store. *)
Lemma Set_emits_self_event_witness :
  exists db' out,
    Set_go_func (ext := demo.libraries) None demo.fair "a" (Some demo.object_a) ∅ =
      (Returns tt, db', out) /\
    PublishEvent {| TriggerObject := demo.stamped "a" demo.object_a;
                    Object := demo.stamped "a" demo.object_a;
                    Distance := 0%float; TimestampUnix := 100 |} ∈ out.
Proof.
  apply (Set_emits_self_event (ext := demo.libraries) demo.fair "a" demo.object_a ∅
           {| Lat := 0; Lon := 0 |}).
  - reflexivity.
  - reflexivity.
  - left. reflexivity.
  - simpl. lia.
  - vm_compute. discriminate.
  - reflexivity.
  - vm_compute. reflexivity.
Defined.

(** C8, counterexample.  A request that holds a nil object panics, and so
    does one that holds an object without a point: no response is returned
    and the sibling "b" is not written.  On a hub whose dispatchers receive
    nothing the call waits for ever in its first publish.  And when the
    serialiser reports an error the entry is written all the same. *)
Lemma Set_panics_waits_or_writes_despite_errors :
  GeoDB_Set_call (ext := demo.libraries) demo.attentive (fun _ => demo.fair)
    [("a", None); ("b", Some demo.object_a)] ∅ = (Panics, ∅, []) /\
  GeoDB_Set_call (ext := demo.libraries) demo.attentive (fun _ => demo.fair)
    [("a", Some demo.pointless); ("b", Some demo.object_a)] ∅ =
    (Panics, ∅, [PublishObject (demo.stamped "a" demo.pointless)]) /\
  GeoDB_Set_call (ext := demo.libraries) demo.deaf (fun _ => demo.fair)
    [("a", Some demo.object_a)] ∅ = (Blocks, ∅, []) /\
  (proto_Marshal (External := demo.reporting) (demo.stamped "a" demo.object_a)).2
    = Some ErrProtoEncode /\
  exists db' out,
    GeoDB_Set_call (ext := demo.reporting) demo.attentive (fun _ => demo.fair)
      [("a", Some demo.object_a)] ∅ = (Returns (Ok SetResponse), db', out) /\
    is_Some (db' !! "a").
Proof.
  split; [vm_compute; reflexivity|]. split; [vm_compute; reflexivity|].
  split; [vm_compute; reflexivity|]. split; [reflexivity|].
  eexists _, _. split; [vm_compute; reflexivity|].
  eexists. vm_compute. reflexivity.
Qed.

(** C8, witness: "a" is written, the commit of "b" is refused. *)
Lemma Set_is_fire_and_forget_witness :
  exists db' out,
    GeoDB_Set_call (ext := demo.libraries) demo.attentive
      (fun k => if String.eqb k "b" then demo.conflicting else demo.fair)
      [("a", Some demo.object_a); ("b", Some demo.object_a)] ∅ =
      (Returns (Ok SetResponse), db', out) /\
    db' !! "a" = Some (demo.stored "a" demo.object_a) /\
    db' !! "b" = None.
Proof.
  destruct (Set_is_fire_and_forget (ext := demo.libraries) demo.attentive
              (fun k => if String.eqb k "b" then demo.conflicting else demo.fair)
              [("a", Some demo.object_a); ("b", Some demo.object_a)] ∅)
    as (db' & out & Hrun & Hin & _).
  - simpl. apply NoDup_cons. split; [|apply NoDup_singleton].
    by intros [=]%list_elem_of_singleton.
  - intros k v Hkv. exists demo.object_a.
    apply elem_of_cons in Hkv as [[= -> ->]|[= -> ->]%list_elem_of_singleton];
      (split; [reflexivity|]); intros _; (split; [by eexists|reflexivity]).
  - exists db', out. split; [exact Hrun|]. split.
    + rewrite (Hin "a" demo.object_a) by (apply elem_of_cons; by left).
      reflexivity.
    + rewrite (Hin "b" demo.object_a)
        by (apply elem_of_cons; right; by apply list_elem_of_singleton).
      reflexivity.
Defined.

(** C9, counterexample.  An object written at time 100 with expiry 50 is in
    the store, and a [Get] of its key at time 100 fails with key-not-found; a
    [Set] of an object without a point panics, so that no [Get] follows it;
    and when the serialiser fails, [Set] writes the entry with no bytes and
    [Get] returns the empty object in place of the one written. *)
Lemma Set_then_Get_fails_or_differs :
  GeoDB_Set_call (ext := demo.libraries) demo.attentive (fun _ => demo.fair)
    [("a", Some (demo.object_at 0 0 5 50))] ∅ =
    (Returns (Ok SetResponse),
     {[ "a" := demo.stored "a" (demo.object_at 0 0 5 50) ]},
     [PublishObject (demo.stamped "a" (demo.object_at 0 0 5 50))]) /\
  GeoDB_Get (ext := demo.libraries) 100
    {[ "a" := demo.stored "a" (demo.object_at 0 0 5 50) ]} ["a"] = Err ErrKeyNotFound /\
  (GeoDB_Set_call (ext := demo.libraries) demo.attentive (fun _ => demo.fair)
     [("k", Some demo.pointless)] ∅).1.1 = Panics /\
  exists db' out,
    GeoDB_Set_call (ext := demo.failing) demo.attentive (fun _ => demo.fair)
      [("a", Some demo.object_a)] ∅ = (Returns (Ok SetResponse), db', out) /\
    GeoDB_Get (ext := demo.failing) 200 db' ["a"] = Ok {[ "a" := demo.empty_object ]} /\
    demo.empty_object <> demo.stamped "a" demo.object_a.
Proof.
  split; [vm_compute; reflexivity|]. split; [vm_compute; reflexivity|].
  split; [vm_compute; reflexivity|].
  eexists _, _. split; [vm_compute; reflexivity|].
  split; [vm_compute; reflexivity|]. discriminate.
Qed.

(** C9, witness: the object of radius 5, written at 100 and read at 200. *)
Lemma Set_then_Get_witness :
  exists db' out,
    GeoDB_Set_call (ext := demo.libraries) demo.attentive (fun _ => demo.fair)
      [("a", Some demo.object_a)] ∅ = (Returns (Ok SetResponse), db', out) /\
    GeoDB_Get (ext := demo.libraries) 200 db' ["a"] =
      Ok {[ "a" := demo.stamped "a" demo.object_a ]}.
Proof.
  apply (Set_then_Get (ext := demo.libraries) demo.attentive (fun _ => demo.fair)
           "a" demo.object_a ∅ 200 {| Lat := 0; Lon := 0 |}).
  - reflexivity.
  - reflexivity.
  - reflexivity.
  - reflexivity.
  - left. reflexivity.
  - reflexivity.
Defined.

(** C10, counterexample.  The object under the empty key has no point, the
    engine refuses its entry, and [Set] returns its response: the batch is
    not one in which every object carries a point, and the call does not
    panic.  Nor is the missing point the only way to a panic: a request whose
    object is nil panics. *)
Lemma Set_returns_on_refused_object_without_point :
  Point demo.pointless = None /\
  GeoDB_Set_call (ext := demo.libraries) demo.attentive (fun _ => demo.refusing)
    [("", Some demo.pointless)] ∅ = (Returns (Ok SetResponse), ∅, []) /\
  GeoDB_Set_call (ext := demo.libraries) demo.attentive (fun _ => demo.fair)
    [("a", None)] ∅ = (Panics, ∅, []).
Proof. repeat split; vm_compute; reflexivity. Qed.

(** C10, witness: the request that holds only the object without a point. *)
Lemma Set_panics_iff_nil_dereference_witness :
  (GeoDB_Set_call (ext := demo.libraries) demo.attentive (fun _ => demo.fair)
     [("a", Some demo.pointless)] ∅).1.1 = Panics.
Proof.
  apply (Set_panics_iff_nil_dereference (ext := demo.libraries) demo.attentive
           (fun _ => demo.fair) [("a", Some demo.pointless)] ∅).
  exists "a", (Some demo.pointless). split; [by apply list_elem_of_singleton|].
  right. exists demo.pointless. repeat split; done.
Defined.

(** C1 on concrete data: the client "c" registers for events and is not
    found. *)
Example event_client_lookup_example :
  let h := (AddEventStreamClient "generated" 7%nat "c" NewHub).2 in
  eventClients h !! "c" = Some 7%nat /\
  GetClientEventStream "c" h = None /\
  GetClientObjectStream "c" (AddObjectStreamClient "generated" 7%nat "c" NewHub).2
    = Some 7%nat.
Proof. vm_compute. done. Qed.

(** C2 on concrete data: "a" is deleted, and [Get] still returns it. *)
Example Delete_then_Get_example :
  let db' := (GeoDB_Delete (ext := demo.libraries) (fun _ => None) demo.db_a ["a"]).2 in
  (GeoDB_Delete (ext := demo.libraries) (fun _ => None) demo.db_a ["a"]).1
    = Ok DeleteResponse /\
  GeoDB_Get (ext := demo.libraries) 100 db' ["a"] =
    Ok {[ "a" := demo.stamped "a" demo.object_a ]}.
Proof. split; vm_compute; reflexivity. Qed.

(** C3 on concrete data: three rounds after the cancellation the call is
    still in its loop, with the client removed. *)
Example Stream_cancelled_example :
  GeoDB_Stream (ext := demo.libraries) "generated" 7%nat "c" "" NewHub
    [ContextDone; ContextDone; ContextDone] = (NewHub, [], None).
Proof. vm_compute. reflexivity. Qed.

(** ** The further properties on concrete data *)

(** X2, witness: [Get] of "a" over [demo.db_a]. *)
Lemma Get_returns_requested_objects_witness :
  exists m,
    GeoDB_Get (ext := demo.libraries) 100 demo.db_a ["a"] = Ok m /\
    m !! "a" = Some (demo.stamped "a" demo.object_a).
Proof.
  destruct (Get_returns_requested_objects (ext := demo.libraries) 100 demo.db_a ["a"])
    as (m & Hm & Hlook).
  - intros k ->%list_elem_of_singleton. exists (demo.stored "a" demo.object_a).
    split; [reflexivity|]. intros _. by eexists.
  - exists m. split; [exact Hm|]. apply Hlook.
    split; [by apply list_elem_of_singleton|].
    exists (demo.stored "a" demo.object_a). split; [|split]; reflexivity.
Defined.

(** X3, witness: "a" is stored and "zz" is not. *)
Lemma Get_fails_on_missing_key_witness :
  GeoDB_Get (ext := demo.libraries) 100 demo.db_a ["a"; "zz"] = Err ErrKeyNotFound \/
  GeoDB_Get (ext := demo.libraries) 100 demo.db_a ["a"; "zz"] = Err ErrProtoDecode.
Proof.
  apply (Get_fails_on_missing_key (ext := demo.libraries) 100 demo.db_a ["a"; "zz"] "zz").
  - apply elem_of_cons. right. by apply list_elem_of_singleton.
  - vm_compute. reflexivity.
Defined.

(** X4, witness: what [Seek] of "a" returns under "a". *)
Lemma scan_results_agree_with_Get_witness :
  GeoDB_Get (ext := demo.libraries) 100 demo.db_a ["a"] =
    Ok {[ "a" := demo.stamped "a" demo.object_a ]}.
Proof.
  apply (scan_results_agree_with_Get (ext := demo.libraries) 100 demo.db_a "a" ""
           {[ "a" := demo.stamped "a" demo.object_a ]}).
  - left. vm_compute. reflexivity.
  - apply lookup_singleton_eq.
Defined.

(** X5, witness: the prefixes "" and "a" over [demo.db_a]. *)
Lemma Seek_longer_prefix_narrows_witness :
  GeoDB_Seek (ext := demo.libraries) 100 demo.db_a "" =
    Ok {[ "a" := demo.stamped "a" demo.object_a ]} /\
  GeoDB_Seek (ext := demo.libraries) 100 demo.db_a "a" =
    Ok {[ "a" := demo.stamped "a" demo.object_a ]} /\
  ({[ "a" := demo.stamped "a" demo.object_a ]} : gmap string api_Object) ⊆
  {[ "a" := demo.stamped "a" demo.object_a ]}.
Proof.
  assert (GeoDB_Seek (ext := demo.libraries) 100 demo.db_a "" =
            Ok {[ "a" := demo.stamped "a" demo.object_a ]}) as Hp
    by (vm_compute; reflexivity).
  assert (GeoDB_Seek (ext := demo.libraries) 100 demo.db_a "a" =
            Ok {[ "a" := demo.stamped "a" demo.object_a ]}) as Hq
    by (vm_compute; reflexivity).
  split; [exact Hp|]. split; [exact Hq|].
  apply (Seek_longer_prefix_narrows (ext := demo.libraries) 100 demo.db_a "" "a");
    [reflexivity|exact Hp|exact Hq].
Defined.

(** X6, witness: the record under "e" carries the event tag. *)
Lemma other_tags_are_skipped_witness :
  GeoDB_Keys (ext := demo.libraries) 100 demo.db_e = Ok [] /\
  GeoDB_Get (ext := demo.libraries) 100 demo.db_e ["e"] = Ok ∅.
Proof.
  destruct (other_tags_are_skipped (ext := demo.libraries) 100 demo.db_e "e"
              (@Build_ValueStruct demo.libraries (Meta_Byte EventMeta) 0 None))
    as (_ & Hget & _).
  - vm_compute. reflexivity.
  - vm_compute. discriminate.
  - split; [vm_compute; reflexivity|exact Hget].
Defined.

(** X7, witness: "b" is written next to "a". *)
Lemma Set_leaves_other_keys_witness :
  GeoDB_Get (ext := demo.libraries) 100
    (<[ "b" := demo.stored "b" demo.object_a ]> demo.db_a) ["a"] =
  GeoDB_Get (ext := demo.libraries) 100 demo.db_a ["a"].
Proof.
  eapply (Set_leaves_other_keys (ext := demo.libraries) (fun _ => demo.fair)
            [("b", demo.object_a)] demo.db_a).
  - vm_compute. reflexivity.
  - intros k ->%list_elem_of_singleton. simpl. by intros [=]%list_elem_of_singleton.
Defined.

(** X8, witness: "b" is written next to "a". *)
Lemma Set_then_Keys_witness :
  exists db' out before after,
    GeoDB_Set (ext := demo.libraries) (fun _ => demo.fair)
      [("b", demo.object_a)] demo.db_a = Returned (Ok SetResponse, db', out) /\
    GeoDB_Keys 100 demo.db_a = Ok before /\
    GeoDB_Keys 100 db' = Ok after /\
    forall k, k ∈ after <-> k ∈ [("b", demo.object_a)].*1 \/ k ∈ before.
Proof.
  apply (Set_then_Keys (ext := demo.libraries) (fun _ => demo.fair)
           [("b", demo.object_a)] demo.db_a 100).
  - simpl. apply NoDup_singleton.
  - intros k v [= -> ->]%list_elem_of_singleton.
    split; [by eexists|]. split; [reflexivity|]. split; [reflexivity|].
    left. reflexivity.
Defined.

(** X9, witness: the commit of "a" is refused. *)
Lemma Set_publishes_before_commit_witness :
  exists events,
    Set_goroutine (ext := demo.libraries) demo.conflicting "a" demo.object_a ∅ =
      Returned (∅, PublishObject (Set_stamp demo.conflicting "a" demo.object_a)
                     :: (PublishEvent <$> events)) /\
    forall event, event ∈ events ->
      TriggerObject event = Set_stamp demo.conflicting "a" demo.object_a.
Proof.
  apply (Set_publishes_before_commit (ext := demo.libraries) demo.conflicting "a"
           demo.object_a ∅ {| Lat := 0; Lon := 0 |} ErrConflict); reflexivity.
Defined.

(** X10, witness: "a" is written into the empty store; the one event pairs
    the object with itself. *)
Lemma Set_publishes_sound_events_witness :
  Set_goroutine (ext := demo.libraries) demo.fair "a" demo.object_a ∅ =
    Returned ({[ "a" := demo.stored "a" demo.object_a ]},
              [PublishObject (demo.stamped "a" demo.object_a);
               PublishEvent (Set_event (ext := demo.libraries)
                               (demo.stamped "a" demo.object_a)
                               (geo_NewPointFromLatLng 0 0)
                               (demo.stamped "a" demo.object_a)
                               {| Lat := 0; Lon := 0 |})]) /\
  ((forall obj,
      PublishObject obj ∈
        [PublishObject (demo.stamped "a" demo.object_a);
         PublishEvent (Set_event (ext := demo.libraries)
                         (demo.stamped "a" demo.object_a)
                         (geo_NewPointFromLatLng 0 0)
                         (demo.stamped "a" demo.object_a)
                         {| Lat := 0; Lon := 0 |})] ->
      obj = Set_stamp demo.fair "a" demo.object_a) /\
   forall event,
     PublishEvent event ∈
       [PublishObject (demo.stamped "a" demo.object_a);
        PublishEvent (Set_event (ext := demo.libraries)
                        (demo.stamped "a" demo.object_a)
                        (geo_NewPointFromLatLng 0 0)
                        (demo.stamped "a" demo.object_a)
                        {| Lat := 0; Lon := 0 |})] ->
     TriggerObject event = Set_stamp demo.fair "a" demo.object_a /\
     TimestampUnix event = UpdatedUnix (Set_stamp demo.fair "a" demo.object_a)).
Proof.
  assert (Set_goroutine (ext := demo.libraries) demo.fair "a" demo.object_a ∅ =
            Returned ({[ "a" := demo.stored "a" demo.object_a ]},
                      [PublishObject (demo.stamped "a" demo.object_a);
                       PublishEvent (Set_event (ext := demo.libraries)
                                       (demo.stamped "a" demo.object_a)
                                       (geo_NewPointFromLatLng 0 0)
                                       (demo.stamped "a" demo.object_a)
                                       {| Lat := 0; Lon := 0 |})])) as Hrun
    by (vm_compute; reflexivity).
  split; [exact Hrun|].
  destruct (Set_publishes_sound_events (ext := demo.libraries) demo.fair "a"
              demo.object_a ∅ _ _ Hrun) as [Hobj Hev].
  split; [exact Hobj|].
  intros event Hin. destruct (Hev event Hin) as (Ht & Hs & _).
  split; [exact Ht|exact Hs].
Defined.

(** X11, witness: expiry 50, read at 100. *)
Lemma Set_entry_expires_witness :
  exists db' out,
    GeoDB_Set (ext := demo.libraries) (fun _ => demo.fair)
      [("a", demo.object_at 0 0 5 50)] ∅ = Returned (Ok SetResponse, db', out) /\
    GeoDB_Get 100 db' ["a"] = Err ErrKeyNotFound /\
    forall keys, GeoDB_Keys 100 db' = Ok keys -> "a" ∉ keys.
Proof.
  apply (Set_entry_expires (ext := demo.libraries) (fun _ => demo.fair) "a"
           (demo.object_at 0 0 5 50) ∅ 100 {| Lat := 0; Lon := 0 |}).
  - reflexivity.
  - reflexivity.
  - reflexivity.
  - vm_compute. discriminate.
  - vm_compute. discriminate.
Defined.

(** X12, witness: expiry -1, read at 100. *)
Lemma Set_negative_expiry_stays_witness :
  exists db' out,
    GeoDB_Set (ext := demo.libraries) (fun _ => demo.fair)
      [("a", demo.object_at 0 0 5 (-1))] ∅ = Returned (Ok SetResponse, db', out) /\
    GeoDB_Get 100 db' ["a"] =
      Ok {[ "a" := Set_stamp demo.fair "a" (demo.object_at 0 0 5 (-1)) ]}.
Proof.
  apply (Set_negative_expiry_stays (ext := demo.libraries) (fun _ => demo.fair) "a"
           (demo.object_at 0 0 5 (-1)) ∅ 100 {| Lat := 0; Lon := 0 |}).
  - reflexivity.
  - reflexivity.
  - reflexivity.
  - simpl. lia.
  - unfold max_int64. lia.
  - reflexivity.
Defined.

(** X13, witness: the pattern "a" lets "a" through and holds "b" back. *)
Lemma Stream_forwards_matching_witness :
  (GeoDB_Stream (ext := demo.libraries) "generated" 7%nat "c" "a" NewHub
     (Received <$> [demo.stamped "a" demo.object_a; demo.stamped "b" demo.object_a])).1.2
  = [demo.stamped "a" demo.object_a].
Proof.
  rewrite (proj2 (Stream_forwards_matching (ext := demo.libraries) "generated" 7%nat
                    "c" "a" NewHub
                    [demo.stamped "a" demo.object_a; demo.stamped "b" demo.object_a])
             "a"); [reflexivity|discriminate|reflexivity].
Defined.

(** X14, witness: the pattern "(". *)
Lemma Stream_bad_pattern_fails_at_first_object_witness :
  (GeoDB_Stream (ext := demo.libraries) "generated" 7%nat "c" "(" NewHub
     [Received (demo.stamped "a" demo.object_a)]).2 = Some ErrRegexpSyntax.
Proof.
  apply (Stream_bad_pattern_fails_at_first_object (ext := demo.libraries) "generated"
           7%nat "c" "(" NewHub (demo.stamped "a" demo.object_a) []).
  - discriminate.
  - reflexivity.
Defined.
